(** * matching-service: the matchmaking core of [main.go]

    A shallow embedding of the Go program: the two MySQL tables of
    [schema.sql], the statements the program runs on them, the
    transaction of one pass of [matchmakingProcessor], the in-memory map
    [waitingChans] with its buffered channels, and the request handler
    [matchmakingHandler] cut into the steps at which the other goroutine
    can be scheduled. *)

From Stdlib Require Import Ascii.
From stdpp Require Import gmap strings list pretty sorting.

Local Open Scope Z_scope.

(** ** Data model (main.go, lines 17-28) *)

Record Player := mkPlayer { ID : string; Rating : Z }.

Record SessionResult := mkSessionResult {
  SessionID : string;
  Player1 : Player;
  Player2 : Player
}.

Global Instance Player_eq_dec : EqDecision Player.
Proof. solve_decision. Defined.

Global Instance SessionResult_eq_dec : EqDecision SessionResult.
Proof. solve_decision. Defined.

(** ** The schema (schema.sql)

    [DATETIME] columns hold whole seconds; they are integers here.  A
    table is the list of its rows in the order they were inserted. *)

Record queue_row := mkQueueRow {
  player_id : string;        (* VARCHAR(64) PRIMARY KEY *)
  rating : Z;                (* INT *)
  waiting_since : Z          (* DATETIME *)
}.

Record session_row := mkSessionRow {
  session_id : string;       (* VARCHAR(64) PRIMARY KEY *)
  player1_id : string;
  player2_id : string;
  start_time : Z
}.

Record DB := mkDB {
  matchmaking_queue : list queue_row;
  sessions : list session_row
}.

Definition empty_db : DB := mkDB [] [].

(** Go's [error]: the program only ever tests [err != nil], yet the
    driver reports a violated primary key and any other failure as
    different values. *)
Inductive error :=
| ErrDuplicateEntry      (* MySQL error 1062 *)
| ErrDriver              (* connection lost, lock wait timeout, ... *)
| ErrDataTooLong         (* MySQL error 1406 *)
| ErrOutOfRange.         (* MySQL error 1264 *)

(** ** ORDER BY: a stable insertion sort on an integer key

    MySQL leaves the order of rows with equal keys open.  Here such rows
    come out in the order the table list has them; a property that
    depends on the order among equal keys is stated for distinct keys
    only. *)

Section order_by.
Context {A : Type} (key : A → Z).

Fixpoint insert_by (x : A) (l : list A) : list A :=
  match l with
  | [] => [x]
  | y :: l' => if key x <=? key y then x :: l else y :: insert_by x l'
  end.

Definition order_by (l : list A) : list A := foldr insert_by [] l.
End order_by.

(** ** Autocommitted statements on the pool handle [db] *)

Definition queue_ids (q : list queue_row) : list string := player_id <$> q.

Definition delete_where_in (ids : list string) (q : list queue_row)
  : list queue_row :=
  filter (λ r, player_id r ∉ ids) q.

(** The columns of [matchmaking_queue]: [rating INT] holds a signed
    32-bit integer and [player_id VARCHAR(64)] at most 64 characters.
    A Go string holds UTF-8; its characters are counted by the bytes
    that do not continue one.  The server is taken in its strict mode,
    the default, where a value that does not fit makes the statement
    fail. *)
Definition INT_MIN : Z := -2147483648.
Definition INT_MAX : Z := 2147483647.

Fixpoint char_length (s : string) : nat :=
  match s with
  | EmptyString => O
  | String c s =>
    if bool_decide (128 ≤ N_of_ascii c < 192)%N then char_length s
    else S (char_length s)
  end.

Definition fits_varchar64 (s : string) : bool :=
  bool_decide (char_length s ≤ 64)%nat.

Definition fits_int (z : Z) : bool :=
  bool_decide (INT_MIN ≤ z ≤ INT_MAX).

(** [insertWaitingPlayer] (lines 78-82).  [fault] is a failure of the
    driver that does not depend on the data; [now] is what [NOW()]
    returns. *)
Definition insertWaitingPlayer (fault : bool) (now : Z) (p : Player) (d : DB)
  : DB * option error :=
  if fault then (d, Some ErrDriver)
  else if negb (fits_varchar64 (ID p)) then (d, Some ErrDataTooLong)
  else if negb (fits_int (Rating p)) then (d, Some ErrOutOfRange)
  else if bool_decide (ID p ∈ queue_ids (matchmaking_queue d))
  then (d, Some ErrDuplicateEntry)
  else (mkDB (matchmaking_queue d ++ [mkQueueRow (ID p) (Rating p) now])
             (sessions d), None).

(** [deleteWaitingPlayer] (lines 85-89). *)
Definition deleteWaitingPlayer (fault : bool) (playerID : string) (d : DB)
  : DB * option error :=
  if fault then (d, Some ErrDriver)
  else (mkDB (delete_where_in [playerID] (matchmaking_queue d)) (sessions d),
        None).

(** [insertSession] (lines 112-116): it runs on [db], not on the open
    transaction, so the row is durable as soon as the statement returns. *)
Definition insertSession (fault : bool) (now : Z) (session : SessionResult)
  (d : DB) : DB * option error :=
  if fault then (d, Some ErrDriver)
  else if bool_decide (SessionID session ∈ session_id <$> sessions d)
  then (d, Some ErrDuplicateEntry)
  else (mkDB (matchmaking_queue d)
             (sessions d ++ [mkSessionRow (SessionID session)
                               (ID (Player1 session)) (ID (Player2 session))
                               now]), None).

(** [createSession] (lines 119-126); [now_ns] is [time.Now().UnixNano()]. *)
Definition createSession (now_ns : Z) (p1 p2 : Player) : SessionResult :=
  mkSessionResult ("session-" +:+ pretty now_ns) p1 p2.

(** ** The transaction [tx]

    The only statement the program runs on [tx] after the snapshot is the
    [DELETE ... IN (?, ?)]; an open transaction is the list of ids whose
    rows it has deleted and not yet committed. *)

Record Tx := mkTx { tx_deleted : list string }.

Definition tx_Begin : Tx := mkTx [].

(** What the transaction sees of the queue. *)
Definition tx_view (tx : Tx) (d : DB) : list queue_row :=
  delete_where_in (tx_deleted tx) (matchmaking_queue d).

(** [rows.Scan(&p.ID, &p.Rating)] *)
Definition scan_row (r : queue_row) : Player :=
  mkPlayer (player_id r) (rating r).

(** How the read of [getWaitingPlayers] can go.  [rows.Next()] returns
    false at the end of the rows and also when reading them breaks; the
    loop of lines 101-107 ends in both cases and [rows.Err()] is not
    looked at, so a read that breaks after [k] rows gives these [k]
    players and no error.  Where a truth value stands for a
    [read_fault], [true] is the query that fails and [false] the read
    of all rows. *)
Inductive read_fault :=
| ReadAll
| QueryFails                 (* tx.Query or rows.Scan returns an error *)
| RowsBreak (k : nat).       (* rows.Next() stops after k rows *)

Definition read_fault_of_bool (b : bool) : read_fault :=
  if b then QueryFails else ReadAll.
Coercion read_fault_of_bool : bool >-> read_fault.

(** [getWaitingPlayers] (lines 92-109). *)
Definition getWaitingPlayers (fault : read_fault) (tx : Tx) (d : DB)
  : list Player * option error :=
  match fault with
  | QueryFails => ([], Some ErrDriver)
  | ReadAll => (scan_row <$> order_by waiting_since (tx_view tx d), None)
  | RowsBreak k =>
    (take k (scan_row <$> order_by waiting_since (tx_view tx d)), None)
  end.

Definition tx_Exec_delete (fault : bool) (ids : list string) (tx : Tx)
  : Tx * option error :=
  if fault then (tx, Some ErrDriver)
  else (mkTx (tx_deleted tx ++ ids), None).

(** A failed [Commit] leaves the transaction's writes unapplied. *)
Definition tx_Commit (fault : bool) (tx : Tx) (d : DB) : DB * option error :=
  if fault then (d, Some ErrDriver)
  else (mkDB (tx_view tx d) (sessions d), None).

Definition tx_Rollback (tx : Tx) (d : DB) : DB := d.

(** ** One pass of [matchmakingProcessor], up to the commit (lines 133-171) *)

Record tick_env := mkTickEnv {
  now_ns : Z;               (* time.Now().UnixNano() in createSession *)
  now : Z;                  (* NOW() in insertSession *)
  begin_fault : bool;
  query_fault : read_fault;
  delete_fault : bool;
  insert_fault : bool;
  commit_fault : bool
}.

Inductive tick_result :=
| TickBeginError
| TickQueryError
| TickDeleteError
| TickInsertError
| TickCommitError
| TickIdle                               (* fewer than two players *)
| TickMatched (session : SessionResult). (* committed; to be notified *)

Definition matchmakingProcessor_tx (e : tick_env) (d : DB) : DB * tick_result :=
  if begin_fault e then (d, TickBeginError)
  else
    let tx := tx_Begin in
    match getWaitingPlayers (query_fault e) tx d with
    | (_, Some _) => (tx_Rollback tx d, TickQueryError)
    | (players, None) =>
      match players with
      | p1 :: p2 :: _ =>
        let session := createSession (now_ns e) p1 p2 in
        match tx_Exec_delete (delete_fault e) [ID p1; ID p2] tx with
        | (tx, Some _) => (tx_Rollback tx d, TickDeleteError)
        | (tx, None) =>
          match insertSession (insert_fault e) (now e) session d with
          | (d, Some _) => (tx_Rollback tx d, TickInsertError)
          | (d, None) =>
            match tx_Commit (commit_fault e) tx d with
            | (d, Some _) => (d, TickCommitError)
            | (d, None) => (d, TickMatched session)
            end
          end
        end
      | _ => (fst (tx_Commit (commit_fault e) tx d), TickIdle)
      end
    end.

(** ** Channels and the map [waitingChans] (lines 35-36)

    A channel value is a reference; [chans] holds, for every channel made
    so far, its buffer of capacity one.  The map and the handler's local
    variable [matchChan] both hold references to the same channel. *)

Record Mem := mkMem {
  waitingChans : gmap string nat;
  chans : list (option SessionResult)
}.

Definition empty_mem : Mem := mkMem ∅ [].

(** [make(chan SessionResult, 1)] *)
Definition make_chan (h : list (option SessionResult))
  : nat * list (option SessionResult) :=
  (length h, h ++ [None]).

(** [ch <- session]: [None] when the buffer is full, where the sender
    blocks. *)
Definition chan_send (ch : nat) (session : SessionResult)
  (h : list (option SessionResult)) : option (list (option SessionResult)) :=
  match h !! ch with
  | Some None => Some (<[ch := Some session]> h)
  | _ => None
  end.

(** [<-ch]: [None] when the buffer is empty, where the receiver blocks. *)
Definition chan_recv (ch : nat) (h : list (option SessionResult))
  : option (SessionResult * list (option SessionResult)) :=
  match h !! ch with
  | Some (Some session) => Some (session, <[ch := None]> h)
  | _ => None
  end.

(** Lines 208-211: a fresh channel is stored under the player's id. *)
Definition register (playerID : string) (m : Mem) : nat * Mem :=
  let '(matchChan, h) := make_chan (chans m) in
  (matchChan, mkMem (<[playerID := matchChan]> (waitingChans m)) h).

(** Lines 176-179 (and 180-183): [if ch, ok := waitingChans[id]; ok].
    The boolean is [ok]; the result is [None] when the send blocks. *)
Definition deliver (playerID : string) (session : SessionResult) (m : Mem)
  : option (bool * Mem) :=
  match waitingChans m !! playerID with
  | Some ch =>
    match chan_send ch session (chans m) with
    | Some h => Some (true, mkMem (delete playerID (waitingChans m)) h)
    | None => None
    end
  | None => Some (false, m)
  end.

(** Lines 175-184, under [waitingChansMutex]. *)
Definition notify (session : SessionResult) (m : Mem) : option Mem :=
  match deliver (ID (Player1 session)) session m with
  | Some (_, m) => snd <$> deliver (ID (Player2 session)) session m
  | None => None
  end.

(** Lines 224-226. *)
Definition unregister (playerID : string) (m : Mem) : Mem :=
  mkMem (delete playerID (waitingChans m)) (chans m).

(** ** [matchmakingHandler] (lines 193-233)

    The handler of one request, after its body has been decoded, cut at
    the points where it touches the database, the map or its channel. *)

Inductive response :=
| RespSession (session : SessionResult)        (* 200, the session as JSON *)
| RespError (msg : string) (status : nat).     (* http.Error *)

Definition StatusInternalServerError : nat := 500.
Definition StatusGatewayTimeout : nat := 504.

Definition resp_register_failed : response :=
  RespError "Failed to register waiting player" StatusInternalServerError.
Definition resp_timeout : response :=
  RespError "No opponent found within timeout" StatusGatewayTimeout.

Inductive pc :=
| AtRegister                 (* line 208 *)
| AtSelect                   (* line 216 *)
| AtUnregister               (* line 224: the deadline case was taken *)
| AtDelete                   (* line 228 *)
| Returned (resp : response).

Record Request := mkRequest {
  player : Player;
  matchChan : option nat;    (* the local variable, once made *)
  at_pc : pc
}.

(** Lines 200-205. *)
Definition handler_enqueue (fault : bool) (now : Z) (p : Player) (d : DB)
  : DB * Request :=
  match insertWaitingPlayer fault now p d with
  | (d, Some _) => (d, mkRequest p None (Returned resp_register_failed))
  | (d, None) => (d, mkRequest p None AtRegister)
  end.

(** Lines 228-231. *)
Definition handler_delete (fault : bool) (p : Player) (d : DB)
  : DB * response :=
  (fst (deleteWaitingPlayer fault (ID p) d), resp_timeout).

(** ** The running service: handlers and the processor, interleaved *)

Record State := mkState {
  db : DB;
  mem : Mem;
  requests : list Request;
  pending : option SessionResult  (* committed by the pass, not yet notified *)
}.

Definition init_state : State := mkState empty_db empty_mem [] None.

Inductive label :=
| Arrive (p : Player) (now : Z) (fault : bool)  (* lines 194-205 *)
| RegisterChan (r : nat)                            (* lines 208-213 *)
| Receive (r : nat)                             (* lines 217-221 *)
| Deadline (r : nat)                            (* line 222 *)
| Unregister (r : nat)                          (* lines 224-226 *)
| Delete (r : nat) (fault : bool)               (* lines 228-231 *)
| Tick (e : tick_env)                           (* lines 134-172, 187 *)
| Notify.                                       (* lines 175-184 *)

Definition set_request (r : nat) (q : Request) (s : State) : State :=
  mkState (db s) (mem s) (<[r := q]> (requests s)) (pending s).

(** [None]: the step is not the next one of that goroutine, or it
    blocks. *)
Definition step (l : label) (s : State) : option State :=
  match l with
  | Arrive p now fault =>
    let '(d, q) := handler_enqueue fault now p (db s) in
    Some (mkState d (mem s) (requests s ++ [q]) (pending s))
  | RegisterChan r =>
    match requests s !! r with
    | Some (mkRequest p _ AtRegister) =>
      let '(ch, m) := register (ID p) (mem s) in
      Some (mkState (db s) m (<[r := mkRequest p (Some ch) AtSelect]> (requests s))
              (pending s))
    | _ => None
    end
  | Receive r =>
    match requests s !! r with
    | Some (mkRequest p (Some ch) AtSelect) =>
      match chan_recv ch (chans (mem s)) with
      | Some (session, h) =>
        Some (mkState (db s) (mkMem (waitingChans (mem s)) h)
                (<[r := mkRequest p (Some ch) (Returned (RespSession session))]>
                   (requests s))
                (pending s))
      | None => None
      end
    | _ => None
    end
  | Deadline r =>
    match requests s !! r with
    | Some (mkRequest p ch AtSelect) =>
      Some (set_request r (mkRequest p ch AtUnregister) s)
    | _ => None
    end
  | Unregister r =>
    match requests s !! r with
    | Some (mkRequest p ch AtUnregister) =>
      Some (mkState (db s) (unregister (ID p) (mem s))
              (<[r := mkRequest p ch AtDelete]> (requests s)) (pending s))
    | _ => None
    end
  | Delete r fault =>
    match requests s !! r with
    | Some (mkRequest p ch AtDelete) =>
      let '(d, resp) := handler_delete fault p (db s) in
      Some (mkState d (mem s) (<[r := mkRequest p ch (Returned resp)]> (requests s))
              (pending s))
    | _ => None
    end
  | Tick e =>
    match pending s with
    | Some _ => None
    | None =>
      match matchmakingProcessor_tx e (db s) with
      | (d, TickMatched session) =>
        Some (mkState d (mem s) (requests s) (Some session))
      | (d, _) => Some (mkState d (mem s) (requests s) None)
      end
    end
  | Notify =>
    match pending s with
    | Some session =>
      match notify session (mem s) with
      | Some m => Some (mkState (db s) m (requests s) None)
      | None => None
      end
    | None => None
    end
  end.

Fixpoint run (tr : list label) (s : State) : option State :=
  match tr with
  | [] => Some s
  | l :: tr => match step l s with Some s => run tr s | None => None end
  end.

(** ** [corsMiddleware] (lines 236-250) *)

(** [http.Header] is a map from keys to lists of values; [Set] replaces
    the list by the one value.  The three keys below are already in the
    canonical form [Set] turns a key into. *)
Definition Header_Set (key value : string)
  (h : gmap string (list string)) : gmap string (list string) :=
  <[key := [value]]> h.

Record HttpRequest := mkHttpRequest {
  Method : string;
  Body : string
}.

(** A handler reads the request and changes the response headers and
    whatever else it can reach, [W]. *)
Definition Handler (W : Type) : Type :=
  gmap string (list string) → HttpRequest → W → gmap string (list string) * W.

Definition corsMiddleware {W : Type} (next : Handler W) : Handler W :=
  λ h r w,
    let h := Header_Set "Access-Control-Allow-Origin" "*" h in
    let h := Header_Set "Access-Control-Allow-Methods" "GET, POST, OPTIONS" h in
    let h := Header_Set "Access-Control-Allow-Headers" "Content-Type" h in
    if bool_decide (Method r = "OPTIONS") then (h, w) else next h r w.

Definition cors_keys : list string :=
  ["Access-Control-Allow-Origin"; "Access-Control-Allow-Methods";
   "Access-Control-Allow-Headers"].

(** ** [initSchemaFromFile] (lines 56-75) *)

(** [strings.Split(s, sep)] for a separator of one byte: the pieces
    between the separators, one more than there are separators. *)
Fixpoint Split (s : string) (sep : ascii) : list string :=
  match s with
  | EmptyString => [EmptyString]
  | String c s' =>
    if decide (c = sep) then EmptyString :: Split s' sep
    else match Split s' sep with
         | piece :: pieces => String c piece :: pieces
         | [] => [String c EmptyString]
         end
  end.

(** The UTF-8 encodings of the runes for which [unicode.IsSpace] holds:
    tab, line feed, vertical tab, form feed, carriage return, space,
    U+0085, U+00A0, U+1680, U+2000 to U+200A, U+2028, U+2029, U+202F,
    U+205F and U+3000. *)
Definition space_runes : list (list ascii) :=
  map (map ascii_of_N)
    [[0x09]; [0x0A]; [0x0B]; [0x0C]; [0x0D]; [0x20];
     [0xC2; 0x85]; [0xC2; 0xA0]; [0xE1; 0x9A; 0x80];
     [0xE2; 0x80; 0x80]; [0xE2; 0x80; 0x81]; [0xE2; 0x80; 0x82];
     [0xE2; 0x80; 0x83]; [0xE2; 0x80; 0x84]; [0xE2; 0x80; 0x85];
     [0xE2; 0x80; 0x86]; [0xE2; 0x80; 0x87]; [0xE2; 0x80; 0x88];
     [0xE2; 0x80; 0x89]; [0xE2; 0x80; 0x8A]; [0xE2; 0x80; 0xA8];
     [0xE2; 0x80; 0xA9]; [0xE2; 0x80; 0xAF]; [0xE2; 0x81; 0x9F];
     [0xE3; 0x80; 0x80]]%N.

Fixpoint strip_prefix (p l : list ascii) : option (list ascii) :=
  match p, l with
  | [], _ => Some l
  | x :: p, y :: l => if decide (x = y) then strip_prefix p l else None
  | _ :: _, [] => None
  end.

(** The rest of [l] after the first of [runes] it starts with. *)
Fixpoint strip_rune (runes : list (list ascii)) (l : list ascii)
  : option (list ascii) :=
  match runes with
  | [] => None
  | p :: runes =>
    match strip_prefix p l with
    | Some rest => Some rest
    | None => strip_rune runes l
    end
  end.

Fixpoint trim_left (runes : list (list ascii)) (fuel : nat) (l : list ascii)
  : list ascii :=
  match fuel with
  | O => l
  | S fuel =>
    match strip_rune runes l with
    | Some rest => trim_left runes fuel rest
    | None => l
    end
  end.

(** [strings.TrimSpace]: the white space runes at the front are
    dropped, then those at the end. *)
Definition TrimSpace (s : string) : string :=
  let l := String.list_ascii_of_string s in
  let l := trim_left space_runes (length l) l in
  let l := reverse (trim_left (reverse <$> space_runes) (length l) (reverse l)) in
  String.string_of_list_ascii l.

Inductive schema_error :=
| ErrReadFile                                   (* line 59 *)
| ErrStatement (stmt : string) (cause : error). (* line 71 *)

(** The loop of lines 64-73; [Exec] is [db.Exec] on a database [D]. *)
Fixpoint exec_stmts {D : Type} (Exec : string → D → D * option error)
    (stmts : list string) (d : D) : D * option schema_error :=
  match stmts with
  | [] => (d, None)
  | stmt :: stmts =>
    let stmt := TrimSpace stmt in
    if decide (stmt = EmptyString) then exec_stmts Exec stmts d
    else match Exec stmt d with
         | (d, Some err) => (d, Some (ErrStatement stmt err))
         | (d, None) => exec_stmts Exec stmts d
         end
  end.

(** [file] is what [ioutil.ReadFile] gives: the content, or nothing when
    it fails. *)
Definition initSchemaFromFile {D : Type} (Exec : string → D → D * option error)
    (file : option string) (d : D) : D * option schema_error :=
  match file with
  | None => (d, Some ErrReadFile)
  | Some data => exec_stmts Exec (Split data ";"%char) d
  end.

(** A [db.Exec] that only records what it is given. *)
Definition recording (ok : string → bool) (stmt : string) (log : list string)
  : list string * option error :=
  (log ++ [stmt], if ok stmt then None else Some ErrDriver).

(** ** Predicates on states *)

(** Every channel in the map is empty, and no two ids share one. *)
Record wf_mem (m : Mem) : Prop := {
  wf_empty : ∀ id ch,
    waitingChans m !! id = Some ch → chans m !! ch = Some None;
  wf_inj : ∀ id1 id2 ch,
    waitingChans m !! id1 = Some ch → waitingChans m !! id2 = Some ch →
    id1 = id2
}.

Record wf (s : State) : Prop := {
  wf_queue : NoDup (queue_ids (matchmaking_queue (db s)));
  wf_chans : wf_mem (mem s);
  wf_sessions :
    Forall (λ row, player1_id row ≠ player2_id row) (sessions (db s))
}.



(** What a row says about the arrival of its player. *)
Definition arrival (r : queue_row) : string * Z :=
  (player_id r, waiting_since r).

Definition matched_ids (r : tick_result) : option (string * string) :=
  match r with
  | TickMatched s => Some (ID (Player1 s), ID (Player2 s))
  | _ => None
  end.

(** The session has its row in [sessions]. *)
Definition stored (d : DB) (session : SessionResult) : Prop :=
  ∃ t, mkSessionRow (SessionID session) (ID (Player1 session))
         (ID (Player2 session)) t ∈ sessions d.

(** The player is one of the two of the session. *)
Definition plays_in (p : Player) (session : SessionResult) : Prop :=
  ID p = ID (Player1 session) ∨ ID p = ID (Player2 session).

(** Where a session can be on its way to a caller: committed and not
    yet notified, in a channel, or in an answer.  It is stored, and the
    request that holds the channel or got the answer is one of its
    players. *)
Record answers_ok (s : State) : Prop := {
  ok_pending : ∀ session, pending s = Some session → stored (db s) session;
  ok_alloc : ∀ r q ch,
    requests s !! r = Some q → matchChan q = Some ch →
    (ch < length (chans (mem s)))%nat;
  ok_owner : ∀ id ch r q,
    waitingChans (mem s) !! id = Some ch →
    requests s !! r = Some q → matchChan q = Some ch → ID (player q) = id;
  ok_buffer : ∀ ch session,
    chans (mem s) !! ch = Some (Some session) → stored (db s) session;
  ok_buffer_owner : ∀ ch session r q,
    chans (mem s) !! ch = Some (Some session) →
    requests s !! r = Some q → matchChan q = Some ch →
    plays_in (player q) session;
  ok_answer : ∀ r q session,
    requests s !! r = Some q → at_pc q = Returned (RespSession session) →
    stored (db s) session ∧ plays_in (player q) session
}.

(** ** Sample data *)

Definition pa : Player := mkPlayer "a1" 1000.
Definition pb : Player := mkPlayer "b1" 1200.
Definition pc1 : Player := mkPlayer "c1" 900.

Definition queue4 : list queue_row :=
  [mkQueueRow "a1" 1000 5; mkQueueRow "b1" 1200 5;
   mkQueueRow "c1" 900 6; mkQueueRow "d1" 1500 8].

(** The same four players, no two in the same second. *)
Definition queue_4_5_6_8 : list queue_row :=
  [mkQueueRow "a1" 1000 4; mkQueueRow "b1" 1200 5;
   mkQueueRow "c1" 900 6; mkQueueRow "d1" 1500 8].

Definition env_ok (n t : Z) : tick_env :=
  mkTickEnv n t false false false false false.

Definition two_registered : list label :=
  [Arrive pa 0 false; RegisterChan 0; Arrive pb 0 false; RegisterChan 1].

(** The state after a run from the start. *)
Definition after (tr : list label) : State :=
  default init_state (run tr init_state).

(** a1 waits in the select. *)
Definition waiting_a1 : State :=
  after [Arrive pa 0 false; RegisterChan 0].

(** a1 and b1 are committed as a pair and not yet notified; a1 has come
    back and is about to store its channel. *)
Definition registering_a1 : State :=
  after (two_registered ++ [Tick (env_ok 42 7); Arrive pa 8 false]).

(** a1 and b1 are committed as a pair; a1's deadline has passed and its
    request has taken its entry out of the map, b1 still waits. *)
Definition abandoned_a1 : list label :=
  two_registered ++ [Tick (env_ok 42 7); Deadline 0; Unregister 0].

Definition rematch_a1 : list label :=
  [Arrive pa 0 false; Arrive pb 0 false; Tick (env_ok 1 1); Notify;
   Arrive pa 2 false; Arrive pc1 2 false].

Definition deadline_taken : list label :=
  two_registered ++ [Tick (env_ok 42 7); Deadline 0; Notify].

(** * Properties *)

(** ** ORDER BY *)

Section order_by_facts.
Context {A : Type} (key : A → Z).

Lemma insert_by_perm x l : insert_by key x l ≡ₚ x :: l.
Proof.
  induction l as [|y l IH]; simpl; [done|].
  destruct (key x <=? key y); [done|].
  rewrite IH. apply Permutation_swap.
Qed.

Lemma order_by_perm l : order_by key l ≡ₚ l.
Proof.
  induction l as [|x l IH]; simpl; [done|].
  by rewrite insert_by_perm, IH.
Qed.


Lemma insert_by_sorted x l :
  StronglySorted (λ a b, key a ≤ key b) l →
  StronglySorted (λ a b, key a ≤ key b) (insert_by key x l).
Proof.
  induction 1 as [|y l Hl IH Hy]; simpl.
  - repeat constructor.
  - destruct (Z.leb_spec (key x) (key y)) as [Hxy|Hxy].
    + constructor; [by constructor|].
      constructor; [done|].
      eapply Forall_impl; [exact Hy|]. simpl. lia.
    + constructor; [done|].
      rewrite insert_by_perm. constructor; [lia|done].
Qed.

Lemma order_by_sorted l :
  StronglySorted (λ a b, key a ≤ key b) (order_by key l).
Proof.
  induction l as [|x l IH]; simpl; [constructor|].
  by apply insert_by_sorted.
Qed.
End order_by_facts.

(** Sorting reads nothing but the key. *)
Lemma insert_by_fmap {A B} (key : A → Z) (key' : B → Z) (g : A → B) x l :
  (∀ a, key' (g a) = key a) →
  g <$> insert_by key x l = insert_by key' (g x) (g <$> l).
Proof.
  intros Hk. induction l as [|y l IH]; simpl; [done|].
  rewrite !Hk. destruct (key x <=? key y); simpl; [done|].
  f_equal. exact IH.
Qed.

Lemma order_by_fmap {A B} (key : A → Z) (key' : B → Z) (g : A → B) l :
  (∀ a, key' (g a) = key a) →
  g <$> order_by key l = order_by key' (g <$> l).
Proof.
  intros Hk. induction l as [|x l IH]; [done|].
  rewrite fmap_cons. change (order_by key (x :: l)) with
    (insert_by key x (order_by key l)).
  change (order_by key' (g x :: (g <$> l))) with
    (insert_by key' (g x) (order_by key' (g <$> l))).
  by rewrite (insert_by_fmap key key' g), IH.
Qed.

(** ** DELETE *)

Lemma delete_where_in_nil q : delete_where_in [] q = q.
Proof.
  unfold delete_where_in. induction q as [|r q IH]; [done|].
  rewrite filter_cons_True; [by rewrite IH | apply not_elem_of_nil].
Qed.

Lemma delete_where_in_absent ids q :
  (∀ i, i ∈ ids → i ∉ queue_ids q) → delete_where_in ids q = q.
Proof.
  unfold delete_where_in, queue_ids. induction q as [|r q IH]; intros H; [done|].
  rewrite filter_cons_True.
  - f_equal. apply IH. intros i Hi Hq. apply (H i Hi). simpl. by right.
  - intros Hr. apply (H _ Hr). simpl. by left.
Qed.

Lemma delete_where_in_gone ids q i :
  i ∈ ids → i ∉ queue_ids (delete_where_in ids q).
Proof.
  unfold delete_where_in, queue_ids. intros Hi Hq.
  apply list_elem_of_fmap in Hq as (r & -> & Hr).
  apply list_elem_of_filter in Hr as [Hr _]. done.
Qed.

Lemma delete_where_in_NoDup ids q :
  NoDup (queue_ids q) → NoDup (queue_ids (delete_where_in ids q)).
Proof.
  unfold delete_where_in, queue_ids. induction q as [|r q IH]; simpl; [done|].
  rewrite NoDup_cons. intros [Hr Hq]. rewrite filter_cons.
  destruct (decide _); [|by apply IH].
  simpl. apply NoDup_cons. split; [|by apply IH].
  intros Hin. apply Hr.
  apply list_elem_of_fmap in Hin as (r' & Heq & Hr').
  apply list_elem_of_filter in Hr' as [_ Hr'].
  apply list_elem_of_fmap. eauto.
Qed.

(** With a primary key, deleting [n] ids removes at most [n] rows. *)
Lemma delete_where_in_length ids q :
  NoDup (queue_ids q) →
  (length q ≤ length (delete_where_in ids q) + length ids)%nat.
Proof.
  unfold delete_where_in, queue_ids. intros Hnd.
  pose proof (filter_app_complement (λ r, player_id r ∉ ids) q) as Hp.
  apply Permutation_length in Hp. rewrite length_app in Hp.
  assert (length (filter (λ r, ¬ (player_id r ∉ ids)) q) ≤ length ids)%nat; [|lia].
  rewrite <- (length_fmap player_id).
  apply submseteq_length, NoDup_submseteq.
  - clear Hp. induction q as [|r q IH]; [constructor|].
    simpl in Hnd. apply NoDup_cons in Hnd as [Hr Hq]. rewrite filter_cons.
    destruct (decide _); [|by apply IH].
    simpl. apply NoDup_cons. split; [|by apply IH].
    intros Hin. apply Hr.
    apply list_elem_of_fmap in Hin as (r' & Heq & Hr').
    apply list_elem_of_filter in Hr' as [_ Hr'].
    apply list_elem_of_fmap. eauto.
  - intros i Hi. apply list_elem_of_fmap in Hi as (r & -> & Hr).
    apply list_elem_of_filter in Hr as [Hr _].
    by destruct (decide (player_id r ∈ ids)).
Qed.

(** ** One pass of the processor *)

Lemma tx_view_begin d : tx_view tx_Begin d = matchmaking_queue d.
Proof. apply delete_where_in_nil. Qed.

Lemma tx_Commit_begin f d : fst (tx_Commit f tx_Begin d) = d.
Proof.
  unfold tx_Commit. destruct f; [done|]. simpl.
  rewrite tx_view_begin. by destruct d.
Qed.

(** What the read gives: an error, fewer than two players, or a list
    that starts with the first two rows of the ordered queue. *)
Lemma getWaitingPlayers_cases (fault : read_fault) d :
  getWaitingPlayers fault tx_Begin d = ([], Some ErrDriver) ∨
  (∃ ps, getWaitingPlayers fault tx_Begin d = (ps, None) ∧
         (length ps < 2)%nat) ∨
  (∃ r1 r2 rest ps,
     order_by waiting_since (matchmaking_queue d) = r1 :: r2 :: rest ∧
     getWaitingPlayers fault tx_Begin d =
       (scan_row r1 :: scan_row r2 :: ps, None)).
Proof.
  assert (∀ k, (∃ ps, take k (scan_row <$>
                      order_by waiting_since (matchmaking_queue d)) = ps ∧
                    (length ps < 2)%nat) ∨
          (∃ r1 r2 rest ps,
             order_by waiting_since (matchmaking_queue d) = r1 :: r2 :: rest ∧
             take k (scan_row <$>
                       order_by waiting_since (matchmaking_queue d)) =
               scan_row r1 :: scan_row r2 :: ps)) as Hk.
  { intros k.
    destruct (order_by waiting_since (matchmaking_queue d))
      as [|r1 [|r2 rest]]; destruct k as [|[|k]]; simpl;
      try (left; eexists; split; [done|simpl; lia]).
    right. by eexists _, _, _, _. }
  destruct fault as [| |k]; simpl; rewrite ?tx_view_begin.
  - right.
    destruct (Hk (length (scan_row <$>
                order_by waiting_since (matchmaking_queue d))))
      as [(ps & Hp & ?)|(r1 & r2 & rest & ps & Hq & Hp)];
      rewrite take_ge in Hp by done; rewrite Hp; [left|right]; eauto 10.
  - by left.
  - right.
    destruct (Hk k) as [(ps & Hp & ?)|(r1 & r2 & rest & ps & Hq & Hp)];
      rewrite Hp; [left|right]; eauto 10.
Qed.



(** A statement that fails inside the pass leaves both tables as they
    were. *)
Lemma tick_statement_failure e d :
  snd (matchmakingProcessor_tx e d)
    ∈ [TickBeginError; TickQueryError; TickDeleteError; TickInsertError] →
  fst (matchmakingProcessor_tx e d) = d.
Proof.
  unfold matchmakingProcessor_tx, tx_Exec_delete, insertSession, tx_Rollback.
  destruct (begin_fault e); [done|].
  destruct (getWaitingPlayers_cases (query_fault e) d)
    as [->|[(ps & -> & Hps)|(r1 & r2 & rest & ps & Hq & ->)]]; [done|..].
  { destruct ps as [|p1 [|p2 ps]]; simpl in Hps; try lia.
    all: by rewrite tx_Commit_begin. }
  simpl.
  destruct (delete_fault e); [done|].
  destruct (insert_fault e); [done|].
  case_bool_decide; [done|].
  unfold tx_Commit.
  destruct (commit_fault e); simpl; intros Hr;
    repeat (apply elem_of_cons in Hr as [Hr|Hr]; [done|]);
    by apply elem_of_nil in Hr.
Qed.

(** The session row is written outside the transaction: when only the
    commit fails, the row stays and the queue keeps both players. *)
Lemma tick_commit_failure n t d r1 r2 rest :
  order_by waiting_since (matchmaking_queue d) = r1 :: r2 :: rest →
  ("session-" +:+ pretty n) ∉ session_id <$> sessions d →
  matchmakingProcessor_tx (mkTickEnv n t false false false false true) d =
    (mkDB (matchmaking_queue d)
       (sessions d ++
          [mkSessionRow ("session-" +:+ pretty n) (player_id r1) (player_id r2) t]),
     TickCommitError).
Proof.
  intros Hq Hfresh.
  unfold matchmakingProcessor_tx, getWaitingPlayers, insertSession,
    read_fault_of_bool. simpl.
  rewrite tx_view_begin, Hq. simpl.
  by rewrite bool_decide_eq_false_2.
Qed.


(** Whatever fails, a pass that reports a match took the first two rows
    of the snapshot. *)
Lemma tick_matched e d s :
  snd (matchmakingProcessor_tx e d) = TickMatched s →
  ∃ r1 r2 rest,
    order_by waiting_since (matchmaking_queue d) = r1 :: r2 :: rest ∧
    s = createSession (now_ns e) (scan_row r1) (scan_row r2) ∧
    fst (matchmakingProcessor_tx e d) =
      mkDB (delete_where_in [player_id r1; player_id r2] (matchmaking_queue d))
        (sessions d ++
           [mkSessionRow (SessionID s) (player_id r1) (player_id r2) (now e)]).
Proof.
  unfold matchmakingProcessor_tx, tx_Exec_delete, insertSession, tx_Commit,
    tx_Rollback.
  destruct (begin_fault e); [done|].
  destruct (getWaitingPlayers_cases (query_fault e) d)
    as [->|[(ps & -> & Hps)|(r1 & r2 & rest & ps & Hq & ->)]]; [done|..].
  { destruct ps as [|p1 [|p2 ps]]; simpl in Hps; try lia; by simpl. }
  simpl.
  destruct (delete_fault e); [done|].
  destruct (insert_fault e); [done|].
  case_bool_decide; [done|].
  destruct (commit_fault e); simpl; [done|].
  intros [= <-]. by exists r1, r2, rest.
Qed.

(** Every outcome of a pass: nothing written, the session row alone
    (the commit failed), or the session row and the two rows deleted. *)
Lemma tick_cases e d :
  fst (matchmakingProcessor_tx e d) = d ∨
  ∃ r1 r2 rest,
    order_by waiting_since (matchmaking_queue d) = r1 :: r2 :: rest ∧
    let row := mkSessionRow ("session-" +:+ pretty (now_ns e))
                 (player_id r1) (player_id r2) (now e) in
    fst (matchmakingProcessor_tx e d) =
      mkDB (matchmaking_queue d) (sessions d ++ [row]) ∨
    fst (matchmakingProcessor_tx e d) =
      mkDB (delete_where_in [player_id r1; player_id r2] (matchmaking_queue d))
        (sessions d ++ [row]).
Proof.
  unfold matchmakingProcessor_tx, tx_Exec_delete, insertSession, tx_Rollback.
  destruct (begin_fault e); [by left|].
  destruct (getWaitingPlayers_cases (query_fault e) d)
    as [->|[(ps & -> & Hps)|(r1 & r2 & rest & ps & Hq & ->)]]; [by left|..].
  { destruct ps as [|p1 [|p2 ps]]; simpl in Hps; try lia.
    all: left; by rewrite tx_Commit_begin. }
  simpl.
  destruct (delete_fault e); [by left|].
  destruct (insert_fault e); [by left|].
  case_bool_decide; [by left|].
  right. exists r1, r2, rest. split; [done|].
  unfold tx_Commit. destruct (commit_fault e); simpl; [by left|by right].
Qed.

(** C1, at the input where it fails: two players wait and every
    statement of the pass succeeds but the commit.  The session row is
    stored although the transaction did not commit, and both queue rows
    are still there: the deletion and the session are not one
    transaction. *)
Theorem C1_session_row_survives_failed_commit :
  matchmakingProcessor_tx (mkTickEnv 42 7 false false false false true)
    (mkDB [mkQueueRow "a1" 1000 5; mkQueueRow "b1" 1200 6] []) =
  (mkDB [mkQueueRow "a1" 1000 5; mkQueueRow "b1" 1200 6]
     [mkSessionRow "session-42" "a1" "b1" 7],
   TickCommitError).
Proof. vm_compute. reflexivity. Qed.



(** ** Ratings play no part in the pairing *)

Lemma arrival_ids q1 q2 :
  arrival <$> q1 = arrival <$> q2 → queue_ids q1 = queue_ids q2.
Proof.
  intros H. unfold queue_ids.
  change player_id with (fst ∘ arrival).
  by rewrite !list_fmap_compose, H.
Qed.

Lemma snapshot_ids q1 q2 :
  arrival <$> q1 = arrival <$> q2 →
  player_id <$> order_by waiting_since q1 =
  player_id <$> order_by waiting_since q2.
Proof.
  intros H.
  change player_id with (fst ∘ arrival).
  rewrite !list_fmap_compose.
  rewrite !(order_by_fmap waiting_since snd arrival) by done.
  by rewrite H.
Qed.

Lemma delete_where_in_ids ids q1 q2 :
  queue_ids q1 = queue_ids q2 →
  queue_ids (delete_where_in ids q1) = queue_ids (delete_where_in ids q2).
Proof.
  unfold queue_ids, delete_where_in.
  revert q2. induction q1 as [|r1 q1 IH]; intros [|r2 q2]; try done.
  rewrite !fmap_cons. intros [= Hr Hq]. rewrite !filter_cons, Hr.
  destruct (decide _); [rewrite !fmap_cons, Hr; f_equal|]; by apply IH.
Qed.

(** C9: two queues that hold the same player ids with the same waiting
    times, row by row, and differ at most in the ratings, give a pass the
    same snapshot of ids, hence the same pair; the pass reports a match
    for the same two ids, stores the same session rows and leaves the
    same ids waiting. *)
Theorem C9_pairing_ignores_ratings (e : tick_env)
    (q1 q2 : list queue_row) (ss : list session_row) :
  arrival <$> q1 = arrival <$> q2 →
  ID <$> fst (getWaitingPlayers (query_fault e) tx_Begin (mkDB q1 ss)) =
  ID <$> fst (getWaitingPlayers (query_fault e) tx_Begin (mkDB q2 ss)) ∧
  matched_ids (snd (matchmakingProcessor_tx e (mkDB q1 ss))) =
  matched_ids (snd (matchmakingProcessor_tx e (mkDB q2 ss))) ∧
  sessions (fst (matchmakingProcessor_tx e (mkDB q1 ss))) =
  sessions (fst (matchmakingProcessor_tx e (mkDB q2 ss))) ∧
  queue_ids (matchmaking_queue (fst (matchmakingProcessor_tx e (mkDB q1 ss)))) =
  queue_ids (matchmaking_queue (fst (matchmakingProcessor_tx e (mkDB q2 ss)))).
Proof.
  intros Harr.
  pose proof (snapshot_ids _ _ Harr) as Hsnap.
  pose proof (arrival_ids _ _ Harr) as Hids.
  unfold matchmakingProcessor_tx, getWaitingPlayers, tx_Exec_delete,
    insertSession, tx_Rollback, tx_Commit.
  destruct (query_fault e) as [| |j]; simpl.
  - rewrite !tx_view_begin. simpl. split.
    { rewrite <- !list_fmap_compose. exact Hsnap. }
    destruct (begin_fault e); [done|].
    destruct (order_by waiting_since q1) as [|a1 [|a2 l1]],
             (order_by waiting_since q2) as [|b1 [|b2 l2]];
      simplify_eq/=.
    1,2: destruct (commit_fault e); simpl; rewrite ?tx_view_begin; done.
    destruct (delete_fault e); [done|].
    destruct (insert_fault e); [done|].
    case_bool_decide; [done|].
    destruct (commit_fault e); simpl; repeat split; try congruence.
    unfold tx_view. simpl.
    match goal with
    | Ha : player_id a1 = player_id b1, Hb : player_id a2 = player_id b2 |- _ =>
      rewrite <- Ha, <- Hb
    end.
    by apply delete_where_in_ids.
  - by destruct (begin_fault e).
  - rewrite !tx_view_begin. simpl. split.
    { rewrite <- !fmap_take, <- !list_fmap_compose, !fmap_take.
      f_equal. exact Hsnap. }
    destruct (begin_fault e); [done|].
    destruct (order_by waiting_since q1) as [|a1 [|a2 l1]],
             (order_by waiting_since q2) as [|b1 [|b2 l2]];
      destruct j as [|[|j]]; simplify_eq/=.
    1-8: destruct (commit_fault e); simpl; rewrite ?tx_view_begin; done.
    destruct (delete_fault e); [done|].
    destruct (insert_fault e); [done|].
    case_bool_decide; [done|].
    destruct (commit_fault e); simpl; repeat split; try congruence.
    unfold tx_view. simpl.
    match goal with
    | Ha : player_id a1 = player_id b1, Hb : player_id a2 = player_id b2 |- _ =>
      rewrite <- Ha, <- Hb
    end.
    by apply delete_where_in_ids.
Qed.

Lemma C9_pairing_ignores_ratings_witness :
  ID <$> fst (getWaitingPlayers false tx_Begin (mkDB queue4 [])) =
  ID <$> fst (getWaitingPlayers false tx_Begin
                (mkDB [mkQueueRow "a1" 3000 5; mkQueueRow "b1" 1 5;
                       mkQueueRow "c1" 2 6; mkQueueRow "d1" 2999 8] [])) ∧
  matched_ids (snd (matchmakingProcessor_tx (env_ok 42 7) (mkDB queue4 []))) =
  matched_ids (snd (matchmakingProcessor_tx (env_ok 42 7)
                (mkDB [mkQueueRow "a1" 3000 5; mkQueueRow "b1" 1 5;
                       mkQueueRow "c1" 2 6; mkQueueRow "d1" 2999 8] []))) ∧
  sessions (fst (matchmakingProcessor_tx (env_ok 42 7) (mkDB queue4 []))) =
  sessions (fst (matchmakingProcessor_tx (env_ok 42 7)
                (mkDB [mkQueueRow "a1" 3000 5; mkQueueRow "b1" 1 5;
                       mkQueueRow "c1" 2 6; mkQueueRow "d1" 2999 8] []))) ∧
  queue_ids (matchmaking_queue
               (fst (matchmakingProcessor_tx (env_ok 42 7) (mkDB queue4 [])))) =
  queue_ids (matchmaking_queue
               (fst (matchmakingProcessor_tx (env_ok 42 7)
                (mkDB [mkQueueRow "a1" 3000 5; mkQueueRow "b1" 1 5;
                       mkQueueRow "c1" 2 6; mkQueueRow "d1" 2999 8] [])))).
Proof.
  apply (C9_pairing_ignores_ratings (env_ok 42 7)). reflexivity.
Defined.

(** ** One session and two rows per pass *)

(** C10: on a queue whose player ids are distinct (the primary key), one
    pass appends at most one row to [sessions] and deletes the rows of at
    most two ids from the queue, so the queue shrinks by at most two
    rows, however many wait; all other rows stay, unchanged and in their
    order. *)
Theorem C10_one_session_two_players_per_tick (e : tick_env) (d : DB) :
  NoDup (queue_ids (matchmaking_queue d)) →
  (∃ new, sessions (fst (matchmakingProcessor_tx e d)) = sessions d ++ new ∧
          (length new ≤ 1)%nat) ∧
  (∃ ids, (length ids ≤ 2)%nat ∧
          matchmaking_queue (fst (matchmakingProcessor_tx e d)) =
            delete_where_in ids (matchmaking_queue d)) ∧
  (length (matchmaking_queue d) ≤
     length (matchmaking_queue (fst (matchmakingProcessor_tx e d))) + 2)%nat.
Proof.
  intros Hnd.
  destruct (tick_cases e d) as [->|(r1 & r2 & rest & Hq & [->| ->])]; simpl.
  - split; [exists []; rewrite app_nil_r; split; [done|simpl; lia]|].
    split; [exists []; rewrite delete_where_in_nil; split; [simpl; lia|done]|].
    lia.
  - split; [eexists [_]; split; [done|simpl; lia]|].
    split; [exists []; rewrite delete_where_in_nil; split; [simpl; lia|done]|].
    lia.
  - split; [eexists [_]; split; [done|simpl; lia]|].
    split; [exists [player_id r1; player_id r2]; split; [simpl; lia|done]|].
    apply (delete_where_in_length [player_id r1; player_id r2]), Hnd.
Qed.

Lemma C10_one_session_two_players_per_tick_witness :
  (∃ new, sessions (fst (matchmakingProcessor_tx (env_ok 42 7) (mkDB queue4 [])))
            = sessions (mkDB queue4 []) ++ new ∧ (length new ≤ 1)%nat) ∧
  (∃ ids, (length ids ≤ 2)%nat ∧
          matchmaking_queue (fst (matchmakingProcessor_tx (env_ok 42 7)
                                    (mkDB queue4 []))) =
            delete_where_in ids (matchmaking_queue (mkDB queue4 []))) ∧
  (length (matchmaking_queue (mkDB queue4 [])) ≤
     length (matchmaking_queue
               (fst (matchmakingProcessor_tx (env_ok 42 7) (mkDB queue4 [])))) + 2)%nat.
Proof.
  apply (C10_one_session_two_players_per_tick (env_ok 42 7) (mkDB queue4 [])).
  refine (bool_decide_unpack _ _). vm_compute. exact I.
Defined.

(** ** The handler, one request at a time *)

(** The insert fails and leaves the database, or appends the row of a
    player whose id was not there. *)
Lemma insertWaitingPlayer_cases fault t p d :
  (∃ err, insertWaitingPlayer fault t p d = (d, Some err)) ∨
  ((ID p ∉ queue_ids (matchmaking_queue d)) ∧
   insertWaitingPlayer fault t p d =
     (mkDB (matchmaking_queue d ++ [mkQueueRow (ID p) (Rating p) t])
        (sessions d), None)).
Proof.
  unfold insertWaitingPlayer.
  destruct fault; [left; by eexists|].
  destruct (fits_varchar64 (ID p)); simpl; [|left; by eexists].
  destruct (fits_int (Rating p)); simpl; [|left; by eexists].
  case_bool_decide; [left; by eexists|by right].
Qed.

(** C3, refuted: a registration whose id is already waiting gets the
    answer of a storage failure, status 500 with the same text, not a
    conflict of its own. *)
Lemma C3_duplicate_is_answered_like_a_storage_failure :
  at_pc (snd (handler_enqueue false 9 pa (mkDB [mkQueueRow "a1" 1000 5] []))) =
    Returned (RespError "Failed to register waiting player" 500) ∧
  at_pc (snd (handler_enqueue true 9 pa empty_db)) =
    at_pc (snd (handler_enqueue false 9 pa (mkDB [mkQueueRow "a1" 1000 5] []))).
Proof. split; reflexivity. Qed.

(** C3, amended: a registration whose id is already in the queue fails at
    once with the internal-error answer, the one every failure of the
    insert gets; the database and the map of channels are as before, and
    the request never reaches the step that stores a channel. *)
Theorem C3_duplicate_registration_fails_as_internal
    (p : Player) (t : Z) (fault : bool) (s : State) :
  ID p ∈ queue_ids (matchmaking_queue (db s)) →
  let q := mkRequest p None (Returned resp_register_failed) in
  let s' := mkState (db s) (mem s) (requests s ++ [q]) (pending s) in
  step (Arrive p t fault) s = Some s' ∧
  step (RegisterChan (length (requests s))) s' = None ∧
  ∀ d, snd (handler_enqueue true t p d) = q.
Proof.
  intros Hin. simpl. repeat split.
  - unfold handler_enqueue.
    by destruct (insertWaitingPlayer_cases fault t p (db s))
      as [[err ->]|[Hout _]].
  - rewrite lookup_app_r by lia. by rewrite Nat.sub_diag.
Qed.

Lemma C3_duplicate_registration_fails_as_internal_witness :
  let s := mkState (mkDB [mkQueueRow "a1" 1000 5] []) empty_mem [] None in
  let q := mkRequest pa None (Returned resp_register_failed) in
  let s' := mkState (db s) (mem s) (requests s ++ [q]) (pending s) in
  step (Arrive pa 9 false) s = Some s' ∧
  step (RegisterChan (length (requests s))) s' = None ∧
  ∀ d, snd (handler_enqueue true 9 pa d) = q.
Proof.
  apply (C3_duplicate_registration_fails_as_internal pa 9 false
           (mkState (mkDB [mkQueueRow "a1" 1000 5] []) empty_mem [] None)).
  refine (bool_decide_unpack _ _). vm_compute. exact I.
Defined.

(** C5, refuted: the player registers, the deadline passes, and the
    DELETE of the timeout path fails.  The handler only logs that: it
    answers with the timeout, and the player's row is still in the
    queue. *)
Lemma C5_row_stays_when_delete_fails :
  ∃ s, run [Arrive pa 0 false; RegisterChan 0; Deadline 0; Unregister 0;
            Delete 0 true] init_state = Some s ∧
       requests s !! 0%nat = Some (mkRequest pa (Some 0%nat) (Returned resp_timeout)) ∧
       matchmaking_queue (db s) = [mkQueueRow "a1" 1000 0].
Proof. eexists. vm_compute. repeat split. Qed.

(** C5, amended: a request waiting in the select whose deadline passes
    takes its entry out of the map, runs the DELETE for its id and then
    answers with the timeout error.  When the DELETE succeeds the queue
    no longer holds the id (and is unchanged if the id was already
    gone); when it fails the queue is left as it was. *)
Theorem C5_timeout_unregisters_and_dequeues
    (s : State) (r : nat) (p : Player) (c : option nat) (fault : bool) :
  requests s !! r = Some (mkRequest p c AtSelect) →
  ∃ s', run [Deadline r; Unregister r; Delete r fault] s = Some s' ∧
    requests s' !! r = Some (mkRequest p c (Returned resp_timeout)) ∧
    waitingChans (mem s') = delete (ID p) (waitingChans (mem s)) ∧
    waitingChans (mem s') !! ID p = None ∧
    matchmaking_queue (db s') =
      (if fault then matchmaking_queue (db s)
       else delete_where_in [ID p] (matchmaking_queue (db s))) ∧
    (fault = false → ID p ∉ queue_ids (matchmaking_queue (db s'))) ∧
    (ID p ∉ queue_ids (matchmaking_queue (db s)) → db s' = db s).
Proof.
  intros Hr. pose proof (lookup_lt_Some _ _ _ Hr) as Hlt.
  simpl. rewrite Hr. simpl.
  rewrite list_lookup_insert_eq by done. simpl.
  rewrite list_lookup_insert_eq by (by rewrite length_insert). simpl.
  eexists. split; [done|]. simpl.
  rewrite !list_insert_insert_eq.
  split; [by rewrite list_lookup_insert_eq|].
  split; [done|]. split; [apply lookup_delete_eq|].
  unfold deleteWaitingPlayer. destruct fault; simpl.
  - split; [done|]. split; [done|]. by destruct (db s).
  - split; [done|]. split.
    + intros _. apply delete_where_in_gone. by left.
    + intros Hout. rewrite delete_where_in_absent; [by destruct (db s)|].
      intros i Hi. by apply list_elem_of_singleton in Hi as ->.
Qed.

Lemma C5_timeout_unregisters_and_dequeues_witness :
  ∃ s', run [Deadline 0; Unregister 0; Delete 0 false] waiting_a1 = Some s' ∧
    requests s' !! 0%nat = Some (mkRequest pa (Some 0%nat) (Returned resp_timeout)) ∧
    waitingChans (mem s') = delete (ID pa) (waitingChans (mem waiting_a1)) ∧
    waitingChans (mem s') !! ID pa = None ∧
    matchmaking_queue (db s') =
      delete_where_in [ID pa] (matchmaking_queue (db waiting_a1)) ∧
    (false = false → ID pa ∉ queue_ids (matchmaking_queue (db s'))) ∧
    (ID pa ∉ queue_ids (matchmaking_queue (db waiting_a1)) →
     db s' = db waiting_a1).
Proof.
  apply (C5_timeout_unregisters_and_dequeues waiting_a1 0%nat pa (Some 0%nat)
           false).
  reflexivity.
Defined.

(** C6, refuted: while the processor has committed the pair a1, b1 and
    not yet notified, a1 registers again (its queue row is gone, so the
    insert succeeds).  The map still holds the first request's channel 0
    for a1; the new registration does not fail, it stores its own
    channel 2 in its place. *)
Lemma C6_register_replaces_the_existing_handle :
  ∃ s s',
    run [Arrive pa 0 false; RegisterChan 0; Arrive pb 0 false; RegisterChan 1;
         Tick (env_ok 42 7); Arrive pa 8 false] init_state = Some s ∧
    waitingChans (mem s) !! "a1" = Some 0%nat ∧
    step (RegisterChan 2) s = Some s' ∧
    waitingChans (mem s') !! "a1" = Some 2%nat.
Proof. do 2 eexists. vm_compute. repeat split. Qed.

(** C6, amended: storing a channel for a player id never fails.  The
    request makes a fresh, empty channel and the map holds it for the id
    afterwards, whether or not the id had a channel before; a channel
    that was there is no longer in the map, and the other ids keep
    theirs. *)
Theorem C6_register_overwrites
    (s : State) (r : nat) (p : Player) (c : option nat) :
  requests s !! r = Some (mkRequest p c AtRegister) →
  ∃ s', step (RegisterChan r) s = Some s' ∧
    waitingChans (mem s') !! ID p = Some (length (chans (mem s))) ∧
    chans (mem s') !! length (chans (mem s)) = Some None ∧
    requests s' !! r =
      Some (mkRequest p (Some (length (chans (mem s)))) AtSelect) ∧
    (∀ old, waitingChans (mem s) !! ID p = Some old →
            is_Some (chans (mem s) !! old) →
            waitingChans (mem s') !! ID p ≠ Some old) ∧
    (∀ id, id ≠ ID p →
           waitingChans (mem s') !! id = waitingChans (mem s) !! id).
Proof.
  intros Hr. pose proof (lookup_lt_Some _ _ _ Hr) as Hlt.
  simpl. rewrite Hr. simpl. eexists. split; [done|]. simpl.
  rewrite lookup_insert_eq. split; [done|].
  split; [by rewrite lookup_app_r, Nat.sub_diag by lia|].
  split; [by rewrite list_lookup_insert_eq|].
  split.
  - intros old _ Hold [= Heq]. apply lookup_lt_is_Some in Hold. lia.
  - intros id Hid. by rewrite lookup_insert_ne.
Qed.

Lemma C6_register_overwrites_witness :
  waitingChans (mem registering_a1) !! ID pa = Some 0%nat ∧
  ∃ s', step (RegisterChan 2) registering_a1 = Some s' ∧
    waitingChans (mem s') !! ID pa = Some (length (chans (mem registering_a1))) ∧
    chans (mem s') !! length (chans (mem registering_a1)) = Some None ∧
    requests s' !! 2%nat =
      Some (mkRequest pa (Some (length (chans (mem registering_a1)))) AtSelect) ∧
    (∀ old, waitingChans (mem registering_a1) !! ID pa = Some old →
            is_Some (chans (mem registering_a1) !! old) →
            waitingChans (mem s') !! ID pa ≠ Some old) ∧
    (∀ id, id ≠ ID pa →
           waitingChans (mem s') !! id =
           waitingChans (mem registering_a1) !! id).
Proof.
  split; [reflexivity|].
  apply (C6_register_overwrites registering_a1 2%nat pa None).
  reflexivity.
Defined.

(** ** Invariants of the running service *)

Lemma wf_mem_empty : wf_mem empty_mem.
Proof. split; intros *; simpl; by rewrite lookup_empty. Qed.

Lemma register_wf id m : wf_mem m → wf_mem (snd (register id m)).
Proof.
  intros [He Hi]. split; simpl.
  - intros id' ch. destruct (decide (id = id')) as [->|Hne].
    + rewrite lookup_insert_eq. intros [= <-].
      by rewrite lookup_app_r, Nat.sub_diag by lia.
    + rewrite lookup_insert_ne by done. intros Hl.
      rewrite lookup_app_l; [by eapply He|].
      eapply lookup_lt_Some, He, Hl.
  - intros id1 id2 ch.
    destruct (decide (id = id1)) as [E1|E1], (decide (id = id2)) as [E2|E2];
      subst; rewrite ?lookup_insert_eq, ?lookup_insert_ne by done; try done.
    + intros [= <-] Hl. apply He, lookup_lt_Some in Hl. lia.
    + intros Hl [= <-]. apply He, lookup_lt_Some in Hl. lia.
    + apply Hi.
Qed.

Lemma unregister_wf id m : wf_mem m → wf_mem (unregister id m).
Proof.
  intros [He Hi]. split; simpl.
  - intros id' ch Hl. apply lookup_delete_Some in Hl as [_ Hl]. eauto.
  - intros id1 id2 ch H1 H2.
    apply lookup_delete_Some in H1 as [_ H1].
    apply lookup_delete_Some in H2 as [_ H2]. eauto.
Qed.

Lemma recv_wf ch m :
  wf_mem m → wf_mem (mkMem (waitingChans m) (<[ch := None]> (chans m))).
Proof.
  intros [He Hi]. split; simpl; [|done].
  intros id ch' Hl. destruct (decide (ch = ch')) as [->|Hne].
  - apply list_lookup_insert_eq. eapply lookup_lt_Some, He, Hl.
  - rewrite list_lookup_insert_ne by done. eauto.
Qed.

(** The send of a delivery finds the buffer empty. *)
Lemma deliver_spec id session m :
  wf_mem m →
  match waitingChans m !! id with
  | Some ch =>
    deliver id session m =
      Some (true, mkMem (delete id (waitingChans m))
                    (<[ch := Some session]> (chans m))) ∧
    <[ch := Some session]> (chans m) !! ch = Some (Some session)
  | None => deliver id session m = Some (false, m)
  end.
Proof.
  intros [He _]. unfold deliver, chan_send.
  destruct (waitingChans m !! id) as [ch|] eqn:Hl; [|done].
  rewrite (He _ _ Hl). split; [done|].
  apply list_lookup_insert_eq. eapply lookup_lt_Some, He, Hl.
Qed.

Lemma deliver_wf id session m b m' :
  wf_mem m → deliver id session m = Some (b, m') → wf_mem m'.
Proof.
  intros Hwf Hd. pose proof (deliver_spec id session m Hwf) as Hs.
  destruct (waitingChans m !! id) as [ch|] eqn:Hl.
  - destruct Hs as [Hs _]. rewrite Hs in Hd. injection Hd as <- <-.
    destruct Hwf as [He Hi]. split; simpl.
    + intros id' ch' Hl'. apply lookup_delete_Some in Hl' as [Hne Hl'].
      rewrite list_lookup_insert_ne; [eauto|].
      intros <-. apply Hne. eauto.
    + intros id1 id2 ch' H1 H2.
      apply lookup_delete_Some in H1 as [_ H1].
      apply lookup_delete_Some in H2 as [_ H2]. eauto.
  - rewrite Hs in Hd. by injection Hd as <- <-.
Qed.

Lemma notify_total session m :
  wf_mem m → ∃ m', notify session m = Some m' ∧ wf_mem m'.
Proof.
  intros Hwf. unfold notify.
  assert (∃ b m1, deliver (ID (Player1 session)) session m = Some (b, m1))
    as (b & m1 & H1).
  { pose proof (deliver_spec (ID (Player1 session)) session m Hwf) as Hs.
    destruct (waitingChans m !! _); [destruct Hs|]; eauto. }
  rewrite H1. pose proof (deliver_wf _ _ _ _ _ Hwf H1) as Hwf1.
  pose proof (deliver_spec (ID (Player2 session)) session m1 Hwf1) as Hs.
  destruct (waitingChans m1 !! _) eqn:Hl.
  - destruct Hs as [Hs _]. rewrite Hs. simpl. eexists. split; [done|].
    eapply deliver_wf; [exact Hwf1|exact Hs].
  - rewrite Hs. simpl. eauto.
Qed.

(** With a primary key on the queue, the first two rows of the snapshot
    are two different players. *)
Lemma snapshot_distinct q r1 r2 rest :
  NoDup (queue_ids q) →
  order_by waiting_since q = r1 :: r2 :: rest →
  player_id r1 ≠ player_id r2.
Proof.
  intros Hnd Hq. unfold queue_ids in Hnd.
  rewrite <- (order_by_perm waiting_since q), Hq in Hnd.
  simpl in Hnd. apply NoDup_cons in Hnd as [Hn _].
  intros Heq. apply Hn. rewrite Heq. by left.
Qed.

Lemma insertWaitingPlayer_NoDup fault t p d :
  NoDup (queue_ids (matchmaking_queue d)) →
  NoDup (queue_ids (matchmaking_queue (fst (insertWaitingPlayer fault t p d)))).
Proof.
  intros Hnd.
  destruct (insertWaitingPlayer_cases fault t p d) as [[err ->]|[Hout ->]];
    [done|]. simpl.
  unfold queue_ids. rewrite fmap_app. simpl.
  apply NoDup_app. split; [done|]. split; [|apply NoDup_singleton].
  intros i Hi Hi'. by apply list_elem_of_singleton in Hi' as ->.
Qed.

Lemma insertWaitingPlayer_sessions fault t p d :
  sessions (fst (insertWaitingPlayer fault t p d)) = sessions d.
Proof.
  by destruct (insertWaitingPlayer_cases fault t p d) as [[err ->]|[_ ->]].
Qed.

Lemma tick_wf e d :
  NoDup (queue_ids (matchmaking_queue d)) →
  Forall (λ row, player1_id row ≠ player2_id row) (sessions d) →
  NoDup (queue_ids (matchmaking_queue (fst (matchmakingProcessor_tx e d)))) ∧
  Forall (λ row, player1_id row ≠ player2_id row)
    (sessions (fst (matchmakingProcessor_tx e d))).
Proof.
  intros Hnd Hss.
  destruct (tick_cases e d) as [->|(r1 & r2 & rest & Hq & [->| ->])];
    [done|simpl..].
  - split; [done|]. apply Forall_app. split; [done|].
    apply Forall_singleton. simpl. by eapply snapshot_distinct.
  - split; [by apply delete_where_in_NoDup|].
    apply Forall_app. split; [done|].
    apply Forall_singleton. simpl. by eapply snapshot_distinct.
Qed.

Lemma wf_init : wf init_state.
Proof.
  split; simpl; [constructor| apply wf_mem_empty | constructor].
Qed.

Lemma wf_step l s s' : wf s → step l s = Some s' → wf s'.
Proof.
  intros [Hq Hm Hs] Hstep. destruct l as [p t f|r|r|r|r|r f|e|]; simpl in Hstep.
  - unfold handler_enqueue in Hstep.
    pose proof (insertWaitingPlayer_NoDup f t p (db s) Hq) as Hq'.
    pose proof (insertWaitingPlayer_sessions f t p (db s)) as Hs'.
    destruct (insertWaitingPlayer f t p (db s)) as [d [err|]];
      injection Hstep as <-; split; simpl in *; try done; by rewrite Hs'.
  - destruct (requests s !! r) as [[p c []]|]; try done.
    injection Hstep as <-. split; simpl; try done.
    by apply (register_wf (ID p)).
  - destruct (requests s !! r) as [[p [ch|] []]|]; try done.
    unfold chan_recv in Hstep.
    destruct (chans (mem s) !! ch) as [[session|]|]; try done.
    injection Hstep as <-. split; simpl; try done. by apply recv_wf.
  - destruct (requests s !! r) as [[p c []]|]; try done.
    by injection Hstep as <-.
  - destruct (requests s !! r) as [[p c []]|]; try done.
    injection Hstep as <-. split; simpl; try done. by apply unregister_wf.
  - destruct (requests s !! r) as [[p c []]|]; try done.
    injection Hstep as <-. split; simpl; try done.
    unfold deleteWaitingPlayer. destruct f; simpl; [done|].
    by apply delete_where_in_NoDup.
    unfold deleteWaitingPlayer. by destruct f.
  - destruct (pending s); [done|].
    destruct (tick_wf e (db s) Hq Hs) as [Hq' Hs'].
    destruct (matchmakingProcessor_tx e (db s)) as [d []];
      injection Hstep as <-; by split.
  - destruct (pending s) as [session|]; [|done].
    destruct (notify_total session (mem s) Hm) as (m' & Hn & Hm').
    rewrite Hn in Hstep. injection Hstep as <-. by split.
Qed.

Lemma wf_run tr s s' : wf s → run tr s = Some s' → wf s'.
Proof.
  revert s. induction tr as [|l tr IH]; intros s Hwf; simpl.
  - by intros [= <-].
  - destruct (step l s) as [s1|] eqn:Hstep; [|done].
    apply IH. by eapply wf_step.
Qed.

(** ** Delivery *)

(** What the notification of both players leaves: the map without the
    two ids, and the session in every channel one of them had. *)
Lemma notify_spec session m :
  wf_mem m →
  ∃ m',
    notify session m = Some m' ∧
    (∀ i, waitingChans m' !! i =
          if decide (i = ID (Player1 session) ∨ i = ID (Player2 session))
          then None else waitingChans m !! i) ∧
    length (chans m') = length (chans m) ∧
    (∀ ch, chans m' !! ch =
           if decide (waitingChans m !! ID (Player1 session) = Some ch ∨
                      waitingChans m !! ID (Player2 session) = Some ch)
           then Some (Some session) else chans m !! ch).
Proof.
  intros Hwf. unfold notify.
  pose proof (deliver_spec (ID (Player1 session)) session m Hwf) as H1.
  pose proof (wf_empty _ Hwf) as He.
  destruct (waitingChans m !! ID (Player1 session)) as [c1|] eqn:Hl1.
  - destruct H1 as [H1 _]. rewrite H1.
    pose proof (deliver_wf _ _ _ _ _ Hwf H1) as Hwf1.
    pose proof (deliver_spec (ID (Player2 session)) session _ Hwf1) as H2.
    pose proof (lookup_lt_Some _ _ _ (He _ _ Hl1)) as Hc1.
    simpl in H2.
    destruct (decide (ID (Player2 session) = ID (Player1 session))) as [Heq|Hne].
    + rewrite Heq in H2 |- *. rewrite lookup_delete_eq in H2.
      rewrite H2. simpl.
      eexists. split; [done|]. simpl. split; [|split].
      * intros i. destruct (decide (i = ID (Player1 session))) as [->|Hi].
        -- rewrite lookup_delete_eq. by rewrite decide_True by by left.
        -- rewrite lookup_delete_ne by done.
           by rewrite decide_False by by intros [|].
      * apply length_insert.
      * intros ch. rewrite Hl1.
        destruct (decide (c1 = ch)) as [->|Hc].
        -- rewrite list_lookup_insert_eq by done.
           by rewrite decide_True by by left.
        -- rewrite list_lookup_insert_ne by done.
           rewrite decide_False; [done|]. by intros [[=]|[=]].
    + rewrite lookup_delete_ne in H2 by done.
      destruct (waitingChans m !! ID (Player2 session)) as [c2|] eqn:Hl2.
      * destruct H2 as [H2 _]. rewrite H2. simpl.
        pose proof (lookup_lt_Some _ _ _ (He _ _ Hl2)) as Hc2.
        eexists. split; [done|]. simpl. split; [|split].
        -- intros i. case_decide as Hi.
           ++ destruct Hi as [->| ->].
              ** by rewrite lookup_delete_ne, lookup_delete_eq by done.
              ** by rewrite lookup_delete_eq.
           ++ rewrite !lookup_delete_ne; [done|..]; intros <-; apply Hi; auto.
        -- by rewrite !length_insert.
        -- intros ch. case_decide as Hch.
           ++ destruct Hch as [[= <-]|[= <-]].
              ** destruct (decide (c2 = c1)) as [->|Hc].
                 --- apply list_lookup_insert_eq. by rewrite length_insert.
                 --- rewrite list_lookup_insert_ne by done.
                     by apply list_lookup_insert_eq.
              ** apply list_lookup_insert_eq. by rewrite length_insert.
           ++ rewrite !list_lookup_insert_ne; [done|..]; intros <-; apply Hch; auto.
      * rewrite H2. simpl. eexists. split; [done|]. simpl. split; [|split].
        -- intros i. case_decide as Hi.
           ++ destruct Hi as [->| ->]; [by rewrite lookup_delete_eq|].
              by rewrite lookup_delete_ne.
           ++ rewrite lookup_delete_ne; [done|]. intros <-. apply Hi. auto.
        -- apply length_insert.
        -- intros ch. case_decide as Hch.
           ++ destruct Hch as [[= <-]|[=]]. by apply list_lookup_insert_eq.
           ++ rewrite list_lookup_insert_ne; [done|]. intros <-. apply Hch. auto.
  - rewrite H1.
    pose proof (deliver_spec (ID (Player2 session)) session m Hwf) as H2.
    destruct (waitingChans m !! ID (Player2 session)) as [c2|] eqn:Hl2.
    + destruct H2 as [H2 _]. rewrite H2. simpl.
      pose proof (lookup_lt_Some _ _ _ (He _ _ Hl2)) as Hc2.
      eexists. split; [done|]. simpl. split; [|split].
      * intros i. case_decide as Hi.
        -- destruct Hi as [->| ->]; [|by rewrite lookup_delete_eq].
           destruct (decide (ID (Player2 session) = ID (Player1 session)))
             as [->|Hne]; [by rewrite lookup_delete_eq|].
           by rewrite lookup_delete_ne.
        -- rewrite lookup_delete_ne; [done|]. intros <-. apply Hi. auto.
      * apply length_insert.
      * intros ch. case_decide as Hch.
        -- destruct Hch as [[=]|[= <-]]. by apply list_lookup_insert_eq.
        -- rewrite list_lookup_insert_ne; [done|]. intros <-. apply Hch. auto.
    + rewrite H2. simpl. eexists. split; [done|]. split; [|split; [done|]].
      * intros i. case_decide as Hi; [|done]. by destruct Hi as [->| ->].
      * done.
Qed.

(** C7: in every state the service can reach, a delivery for a player id
    that has a channel in the map puts the session into that channel and
    removes the entry; for an id without an entry it reports [false] and
    changes nothing.  The notification of lines 175-184 never blocks,
    whatever the handlers have done in the meantime, also when a waiting
    request has timed out and taken its entry away: it returns, the map
    has lost the entries of the two players and is otherwise as it was,
    the session is in every channel one of the two had in the map, every
    other channel is as it was, and this is what the processor's notify
    step leaves. *)
Theorem C7_deliver_hands_over_and_never_blocks
    (tr : list label) (s : State) (id : string) (session : SessionResult) :
  run tr init_state = Some s →
  match waitingChans (mem s) !! id with
  | Some ch =>
    deliver id session (mem s) =
      Some (true, mkMem (delete id (waitingChans (mem s)))
                    (<[ch := Some session]> (chans (mem s)))) ∧
    <[ch := Some session]> (chans (mem s)) !! ch = Some (Some session)
  | None => deliver id session (mem s) = Some (false, mem s)
  end ∧
  ∃ m',
    notify session (mem s) = Some m' ∧
    (∀ i, waitingChans m' !! i =
          if decide (i = ID (Player1 session) ∨ i = ID (Player2 session))
          then None else waitingChans (mem s) !! i) ∧
    length (chans m') = length (chans (mem s)) ∧
    (∀ ch, chans m' !! ch =
           if decide (waitingChans (mem s) !! ID (Player1 session) = Some ch ∨
                      waitingChans (mem s) !! ID (Player2 session) = Some ch)
           then Some (Some session) else chans (mem s) !! ch) ∧
    (pending s = Some session →
     step Notify s = Some (mkState (db s) m' (requests s) None)).
Proof.
  intros Hrun. pose proof (wf_run _ _ _ wf_init Hrun) as [_ Hm _].
  split; [by apply deliver_spec|].
  destruct (notify_spec session (mem s) Hm) as (m' & Hn & Hw & Hl & Hc).
  exists m'. do 4 (split; [done|]).
  intros Hp. simpl. by rewrite Hp, Hn.
Qed.

Lemma C7_deliver_hands_over_and_never_blocks_witness :
  ∃ s session,
    run abandoned_a1 init_state = Some s ∧
    pending s = Some session ∧
    waitingChans (mem s) !! ID (Player1 session) = None ∧
    waitingChans (mem s) !! ID (Player2 session) = Some 1%nat ∧
    match waitingChans (mem s) !! "b1" with
    | Some ch =>
      deliver "b1" session (mem s) =
        Some (true, mkMem (delete "b1" (waitingChans (mem s)))
                      (<[ch := Some session]> (chans (mem s)))) ∧
      <[ch := Some session]> (chans (mem s)) !! ch = Some (Some session)
    | None => deliver "b1" session (mem s) = Some (false, mem s)
    end ∧
    ∃ m',
      notify session (mem s) = Some m' ∧
      (∀ i, waitingChans m' !! i =
            if decide (i = ID (Player1 session) ∨ i = ID (Player2 session))
            then None else waitingChans (mem s) !! i) ∧
      length (chans m') = length (chans (mem s)) ∧
      (∀ ch, chans m' !! ch =
             if decide (waitingChans (mem s) !! ID (Player1 session) = Some ch ∨
                        waitingChans (mem s) !! ID (Player2 session) = Some ch)
             then Some (Some session) else chans (mem s) !! ch) ∧
      (pending s = Some session →
       step Notify s = Some (mkState (db s) m' (requests s) None)).
Proof.
  eexists _, _. split; [reflexivity|]. split; [reflexivity|].
  split; [reflexivity|]. split; [reflexivity|].
  apply (C7_deliver_hands_over_and_never_blocks abandoned_a1).
  reflexivity.
Defined.

(** ** Sessions *)

(** C8, refuted: a1 is matched with b1, registers again and is matched
    with c1.  The table then holds two distinct sessions with a1. *)
Lemma C8_player_in_two_sessions :
  ∃ s, run [Arrive pa 0 false; Arrive pb 0 false; Tick (env_ok 1 1); Notify;
            Arrive pa 2 false; Arrive pc1 2 false; Tick (env_ok 2 3)]
         init_state = Some s ∧
       sessions (db s) = [mkSessionRow "session-1" "a1" "b1" 1;
                          mkSessionRow "session-2" "a1" "c1" 3].
Proof. eexists. vm_compute. split; reflexivity. Qed.

(** C8, amended: in every state the service can reach, each stored
    session has two different player ids, and so has the session of any
    pass that reports a match from that state; such a pass has deleted
    the queue rows of both ids when it commits, so the two are not paired
    again from those queue entries. *)
Theorem C8_session_players_distinct (tr : list label) (s : State) :
  run tr init_state = Some s →
  Forall (λ row, player1_id row ≠ player2_id row) (sessions (db s)) ∧
  ∀ e session,
    snd (matchmakingProcessor_tx e (db s)) = TickMatched session →
    ID (Player1 session) ≠ ID (Player2 session) ∧
    (ID (Player1 session)
       ∉ queue_ids (matchmaking_queue (fst (matchmakingProcessor_tx e (db s))))) ∧
    (ID (Player2 session)
       ∉ queue_ids (matchmaking_queue (fst (matchmakingProcessor_tx e (db s))))).
Proof.
  intros Hrun. pose proof (wf_run _ _ _ wf_init Hrun) as [Hq _ Hs].
  split; [done|]. intros e session Hm.
  apply tick_matched in Hm as (r1 & r2 & rest & Hsnap & -> & ->). simpl.
  split; [by eapply snapshot_distinct|].
  split; apply delete_where_in_gone; [by left|by right; left].
Qed.

Lemma C8_session_players_distinct_witness :
  ∃ s, run rematch_a1 init_state = Some s ∧
  Forall (λ row, player1_id row ≠ player2_id row) (sessions (db s)) ∧
  ∀ e session,
    snd (matchmakingProcessor_tx e (db s)) = TickMatched session →
    ID (Player1 session) ≠ ID (Player2 session) ∧
    (ID (Player1 session)
       ∉ queue_ids (matchmaking_queue (fst (matchmakingProcessor_tx e (db s))))) ∧
    (ID (Player2 session)
       ∉ queue_ids (matchmaking_queue (fst (matchmakingProcessor_tx e (db s))))).
Proof.
  eexists. split; [reflexivity|].
  apply (C8_session_players_distinct rematch_a1).
  reflexivity.
Defined.

(** ** The deadline against a delivery *)






(** * Further properties of the code *)

(** ** The queue table *)









(** ** Session ids *)

Lemma createSession_id_inj n m p1 p2 q1 q2 :
  SessionID (createSession n p1 p2) = SessionID (createSession m q1 q2) →
  n = m.
Proof.
  unfold createSession. simpl. intros H. simplify_eq/=.
  by apply (inj pretty).
Qed.

(** X5: the session id is the clock reading and nothing else: two
    sessions get the same id exactly when they were created in the same
    nanosecond, whoever the players are.  The second of two such
    sessions is refused by the primary key of [sessions], and the table
    stays as it was. *)
Theorem session_id_is_the_clock (n m t1 t2 : Z) (p1 p2 q1 q2 : Player) (d : DB) :
  (SessionID (createSession n p1 p2) = SessionID (createSession m q1 q2) ↔
   n = m) ∧
  (snd (insertSession false t1 (createSession n p1 p2) d) = None →
   insertSession false t2 (createSession n q1 q2)
     (fst (insertSession false t1 (createSession n p1 p2) d)) =
   (fst (insertSession false t1 (createSession n p1 p2) d),
    Some ErrDuplicateEntry)).
Proof.
  split.
  - split; [apply createSession_id_inj|by intros ->].
  - unfold insertSession. simpl.
    case_bool_decide as H1; simpl; [done|]. intros _.
    rewrite bool_decide_eq_true_2; [done|].
    rewrite fmap_app. apply elem_of_app. right. simpl. by left.
Qed.

Lemma session_id_is_the_clock_witness :
  insertSession false 8 (createSession 42 pb pc1)
    (fst (insertSession false 7 (createSession 42 pa pb) empty_db)) =
  (fst (insertSession false 7 (createSession 42 pa pb) empty_db),
   Some ErrDuplicateEntry).
Proof.
  apply (proj2 (session_id_is_the_clock 42 42 7 8 pa pb pb pc1 empty_db)).
  reflexivity.
Defined.

(** ** From one pass to the next *)

Lemma filter_insert_by {A} (key : A → Z) (P : A → Prop)
    `{∀ x, Decision (P x)} x l :
  StronglySorted (λ a b, key a ≤ key b) l →
  filter P (insert_by key x l) =
  if decide (P x) then insert_by key x (filter P l) else filter P l.
Proof.
  induction 1 as [|y l Hl IH Hy]; simpl.
  - rewrite filter_cons, filter_nil. by destruct (decide (P x)).
  - destruct (Z.leb_spec (key x) (key y)) as [Hxy|Hxy].
    + rewrite (filter_cons _ x). destruct (decide (P x)) as [Hx|Hx]; [|done].
      rewrite (filter_cons _ y). destruct (decide (P y)) as [Hp|Hp]; simpl.
      * by rewrite (proj2 (Z.leb_le _ _) Hxy).
      * clear IH. induction l as [|z l IHl]; [done|].
        apply Forall_cons in Hy as [Hyz Hy].
        apply StronglySorted_cons in Hl as [_ Hl].
        rewrite filter_cons. destruct (decide (P z)); simpl.
        -- by rewrite (proj2 (Z.leb_le (key x) (key z))) by lia.
        -- by apply IHl.
    + rewrite !(filter_cons _ y). destruct (decide (P y)) as [Hp|Hp]; simpl.
      * rewrite IH. destruct (decide (P x)); [|done]. simpl.
        by rewrite (proj2 (Z.leb_gt _ _) Hxy).
      * exact IH.
Qed.

Lemma filter_order_by {A} (key : A → Z) (P : A → Prop)
    `{∀ x, Decision (P x)} l :
  order_by key (filter P l) = filter P (order_by key l).
Proof.
  induction l as [|x l IH]; [done|].
  change (order_by key (x :: l)) with (insert_by key x (order_by key l)).
  rewrite filter_insert_by by apply order_by_sorted.
  rewrite filter_cons. destruct (decide (P x)); [|done].
  change (order_by key (x :: filter P l))
    with (insert_by key x (order_by key (filter P l))).
  by rewrite IH.
Qed.

Lemma NoDup_fmap_eq {A B} (f : A → B) (l : list A) x y :
  NoDup (f <$> l) → x ∈ l → y ∈ l → f x = f y → x = y.
Proof.
  induction l as [|a l IH]; [by intros _ ?%elem_of_nil|].
  rewrite fmap_cons, NoDup_cons. intros [Ha Hl] Hx Hy Hf.
  apply elem_of_cons in Hx as [->|Hx]; apply elem_of_cons in Hy as [->|Hy].
  - done.
  - destruct Ha. rewrite Hf. by apply list_elem_of_fmap_2.
  - destruct Ha. rewrite <- Hf. by apply list_elem_of_fmap_2.
  - by apply IH.
Qed.

(** Rows with distinct waiting times have one ascending order only. *)
Lemma ascending_order_unique (q q' rows : list queue_row) :
  NoDup (waiting_since <$> q) → q' ⊆ q →
  rows ≡ₚ q' →
  StronglySorted (λ a b, waiting_since a ≤ waiting_since b) rows →
  rows = order_by waiting_since q'.
Proof.
  intros Hnd Hsub Hp Hs.
  apply (StronglySorted_unique_strong
           (λ a b, waiting_since a ≤ waiting_since b));
    [|done|apply order_by_sorted|by rewrite order_by_perm].
  intros x1 x2 H1 H2 H12 H21.
  apply (NoDup_fmap_eq waiting_since q); [done|..|lia].
  - apply Hsub. by rewrite <- Hp.
  - apply Hsub. by rewrite <- (order_by_perm waiting_since).
Qed.

Lemma next_rows q r1 r2 rest :
  NoDup (queue_ids q) →
  order_by waiting_since q = r1 :: r2 :: rest →
  order_by waiting_since (delete_where_in [player_id r1; player_id r2] q) =
  rest.
Proof.
  intros Hnd Hq.
  unfold delete_where_in. rewrite filter_order_by, Hq.
  unfold queue_ids in Hnd.
  rewrite <- (order_by_perm waiting_since), Hq in Hnd.
  rewrite !fmap_cons in Hnd.
  apply NoDup_cons in Hnd as [Hn1 Hnd]. apply NoDup_cons in Hnd as [Hn2 _].
  rewrite filter_cons_False by (intros Hn; apply Hn; by left).
  rewrite filter_cons_False by (intros Hn; apply Hn; right; by left).
  fold (delete_where_in [player_id r1; player_id r2] rest).
  rewrite delete_where_in_absent; [done|].
  intros i Hi Hin. apply elem_of_cons in Hi as [->|Hi].
  - apply Hn1. by right.
  - apply list_elem_of_singleton in Hi as ->. by apply Hn2.
Qed.

(** X6: pairing is first in, first out from pass to pass.  On a queue
    with distinct ids in which no two rows have the same
    [waiting_since], take the rows in ascending order before a pass
    that committed a match and again after it: the order after is the
    order before without its first two rows, so the third and fourth of
    the old order are the next pair.  With distinct times there is only
    one ascending order, so this does not depend on how rows of equal
    time would be ordered; the snapshot read by [getWaitingPlayers] is
    that order. *)
Theorem next_snapshot_drops_the_pair (e : tick_env) (d : DB)
    (session : SessionResult) (before after : list queue_row) :
  NoDup (queue_ids (matchmaking_queue d)) →
  NoDup (waiting_since <$> matchmaking_queue d) →
  snd (matchmakingProcessor_tx e d) = TickMatched session →
  before ≡ₚ matchmaking_queue d →
  StronglySorted (λ a b, waiting_since a ≤ waiting_since b) before →
  after ≡ₚ matchmaking_queue (fst (matchmakingProcessor_tx e d)) →
  StronglySorted (λ a b, waiting_since a ≤ waiting_since b) after →
  after = drop 2 before ∧
  fst (getWaitingPlayers false tx_Begin d) = scan_row <$> before ∧
  fst (getWaitingPlayers false tx_Begin (fst (matchmakingProcessor_tx e d))) =
    scan_row <$> after.
Proof.
  intros Hnd Hts Hm Hb Hbs Ha Has.
  apply tick_matched in Hm as (r1 & r2 & rest & Hq & _ & Hd).
  rewrite Hd in Ha |- *. simpl in Ha.
  apply (ascending_order_unique (matchmaking_queue d)) in Hb as ->;
    [|done..].
  apply (ascending_order_unique (matchmaking_queue d)) in Ha as ->;
    [|done|apply list_subseteq_filter|done].
  unfold getWaitingPlayers. simpl. rewrite !tx_view_begin. simpl.
  split; [|done]. by rewrite (next_rows _ r1 r2 rest), Hq.
Qed.

Lemma next_snapshot_drops_the_pair_witness :
  [mkQueueRow "c1" 900 6; mkQueueRow "d1" 1500 8] =
    drop 2 [mkQueueRow "a1" 1000 4; mkQueueRow "b1" 1200 5;
            mkQueueRow "c1" 900 6; mkQueueRow "d1" 1500 8] ∧
  fst (getWaitingPlayers false tx_Begin (mkDB queue_4_5_6_8 [])) =
    scan_row <$> [mkQueueRow "a1" 1000 4; mkQueueRow "b1" 1200 5;
                  mkQueueRow "c1" 900 6; mkQueueRow "d1" 1500 8] ∧
  fst (getWaitingPlayers false tx_Begin
         (fst (matchmakingProcessor_tx (env_ok 42 7)
                 (mkDB queue_4_5_6_8 [])))) =
    scan_row <$> [mkQueueRow "c1" 900 6; mkQueueRow "d1" 1500 8].
Proof.
  apply (next_snapshot_drops_the_pair (env_ok 42 7) (mkDB queue_4_5_6_8 [])
           (createSession 42 pa pb)).
  - refine (bool_decide_unpack _ _). vm_compute. exact I.
  - refine (bool_decide_unpack _ _). vm_compute. exact I.
  - reflexivity.
  - reflexivity.
  - repeat constructor; simpl; lia.
  - reflexivity.
  - repeat constructor; simpl; lia.
Defined.





(** ** The tables over a run *)

Lemma tick_sessions_prefix e d :
  sessions d `prefix_of` sessions (fst (matchmakingProcessor_tx e d)).
Proof.
  destruct (tick_cases e d) as [->|(r1 & r2 & rest & _ & [->| ->])]; simpl;
    [done|by apply prefix_app_r..].
Qed.

Lemma step_sessions_prefix l s s' :
  step l s = Some s' → sessions (db s) `prefix_of` sessions (db s').
Proof.
  intros Hstep. destruct l as [p t f|r|r|r|r|r f|e|]; simpl in Hstep.
  - unfold handler_enqueue in Hstep.
    pose proof (insertWaitingPlayer_sessions f t p (db s)) as Hs.
    destruct (insertWaitingPlayer f t p (db s)) as [d [err|]];
      injection Hstep as <-; simpl in *; by rewrite Hs.
  - destruct (requests s !! r) as [[p c []]|]; try done.
    by injection Hstep as <-.
  - destruct (requests s !! r) as [[p [ch|] []]|]; try done.
    destruct (chan_recv ch (chans (mem s))) as [[session h]|]; [|done].
    by injection Hstep as <-.
  - destruct (requests s !! r) as [[p c []]|]; try done.
    by injection Hstep as <-.
  - destruct (requests s !! r) as [[p c []]|]; try done.
    by injection Hstep as <-.
  - destruct (requests s !! r) as [[p c []]|]; try done.
    injection Hstep as <-. simpl. unfold deleteWaitingPlayer. by destruct f.
  - destruct (pending s); [done|].
    pose proof (tick_sessions_prefix e (db s)) as Hp.
    destruct (matchmakingProcessor_tx e (db s)) as [d []];
      by injection Hstep as <-.
  - destruct (pending s) as [session|]; [|done].
    destruct (notify session (mem s)); [|done].
    by injection Hstep as <-.
Qed.

(** X9: the service only ever appends to [sessions].  Whatever the
    handlers and the processor do, the rows stored before are still
    there afterwards, unchanged and in the same positions. *)
Theorem sessions_append_only (tr : list label) (s s' : State) :
  run tr s = Some s' → sessions (db s) `prefix_of` sessions (db s').
Proof.
  revert s. induction tr as [|l tr IH]; intros s; simpl.
  - by intros [= <-].
  - destruct (step l s) as [s1|] eqn:Hstep; [|done]. intros Hrun.
    etrans; [by eapply step_sessions_prefix|by apply IH].
Qed.

Lemma sessions_append_only_witness :
  sessions (db (after two_registered))
    `prefix_of` sessions (db (after deadline_taken)).
Proof.
  apply (sessions_append_only [Tick (env_ok 42 7); Deadline 0; Notify]).
  reflexivity.
Defined.

Lemma tick_session_ids_NoDup e d :
  NoDup (session_id <$> sessions d) →
  NoDup (session_id <$> sessions (fst (matchmakingProcessor_tx e d))).
Proof.
  intros Hnd.
  unfold matchmakingProcessor_tx, tx_Exec_delete, insertSession, tx_Rollback.
  destruct (begin_fault e); [done|].
  destruct (getWaitingPlayers (query_fault e) tx_Begin d) as [ps [err|]];
    [done|].
  destruct ps as [|p1 [|p2 ps]]; simpl.
  1,2: by rewrite tx_Commit_begin.
  destruct (delete_fault e); [done|].
  destruct (insert_fault e); [done|].
  case_bool_decide as Hin; [done|].
  assert (NoDup (session_id <$> sessions d ++
            [mkSessionRow ("session-" +:+ pretty (now_ns e)) (ID p1) (ID p2)
               (now e)])) as Hnd'.
  { rewrite fmap_app. apply NoDup_app. split; [done|].
    split; [|apply NoDup_singleton].
    intros i Hi Hi'. apply list_elem_of_singleton in Hi' as ->.
    by apply Hin. }
  unfold tx_Commit. by destruct (commit_fault e).
Qed.

Lemma step_session_ids_NoDup l s s' :
  NoDup (session_id <$> sessions (db s)) → step l s = Some s' →
  NoDup (session_id <$> sessions (db s')).
Proof.
  intros Hnd Hstep. destruct l as [p t f|r|r|r|r|r f|e|]; simpl in Hstep.
  - unfold handler_enqueue in Hstep.
    pose proof (insertWaitingPlayer_sessions f t p (db s)) as Hs.
    destruct (insertWaitingPlayer f t p (db s)) as [d [err|]];
      injection Hstep as <-; simpl in *; by rewrite Hs.
  - destruct (requests s !! r) as [[p c []]|]; try done.
    by injection Hstep as <-.
  - destruct (requests s !! r) as [[p [ch|] []]|]; try done.
    destruct (chan_recv ch (chans (mem s))) as [[session h]|]; [|done].
    by injection Hstep as <-.
  - destruct (requests s !! r) as [[p c []]|]; try done.
    by injection Hstep as <-.
  - destruct (requests s !! r) as [[p c []]|]; try done.
    by injection Hstep as <-.
  - destruct (requests s !! r) as [[p c []]|]; try done.
    injection Hstep as <-. simpl. unfold deleteWaitingPlayer. by destruct f.
  - destruct (pending s); [done|].
    pose proof (tick_session_ids_NoDup e (db s) Hnd) as Hp.
    destruct (matchmakingProcessor_tx e (db s)) as [d []];
      by injection Hstep as <-.
  - destruct (pending s) as [session|]; [|done].
    destruct (notify session (mem s)); [|done].
    by injection Hstep as <-.
Qed.

(** X10: both primary keys hold in every state the service can reach:
    no player id has two rows in the waiting queue, and no session id
    has two rows in [sessions]. *)
Theorem primary_keys_hold (tr : list label) (s : State) :
  run tr init_state = Some s →
  NoDup (queue_ids (matchmaking_queue (db s))) ∧
  NoDup (session_id <$> sessions (db s)).
Proof.
  intros Hrun. split; [by destruct (wf_run _ _ _ wf_init Hrun)|].
  assert (NoDup (session_id <$> sessions (db init_state))) as Hi
    by constructor.
  revert Hi Hrun. generalize init_state.
  induction tr as [|l tr IH]; intros s0 Hnd; simpl.
  - by intros [= <-].
  - destruct (step l s0) as [s1|] eqn:Hstep; [|done].
    apply IH. by eapply step_session_ids_NoDup.
Qed.

Lemma primary_keys_hold_witness :
  ∃ s, run (rematch_a1 ++ [Tick (env_ok 2 3)]) init_state = Some s ∧
  NoDup (queue_ids (matchmaking_queue (db s))) ∧
  NoDup (session_id <$> sessions (db s)).
Proof.
  eexists. split; [reflexivity|].
  apply (primary_keys_hold (rematch_a1 ++ [Tick (env_ok 2 3)])).
  reflexivity.
Defined.

(** ** What a caller is answered *)

Lemma stored_mono d d' session :
  sessions d `prefix_of` sessions d' → stored d session → stored d' session.
Proof. intros Hp [t Ht]. exists t. by eapply elem_of_prefix. Qed.

(** What one delivery does to the map and to the channels. *)
Lemma deliver_effect id session m b m' :
  deliver id session m = Some (b, m') →
  length (chans m') = length (chans m) ∧
  (∀ i ch, waitingChans m' !! i = Some ch → waitingChans m !! i = Some ch) ∧
  (∀ ch, chans m' !! ch = chans m !! ch ∨
         (chans m' !! ch = Some (Some session) ∧
          waitingChans m !! id = Some ch)).
Proof.
  unfold deliver, chan_send.
  destruct (waitingChans m !! id) as [c|] eqn:Hl.
  - destruct (chans m !! c) as [[x|]|] eqn:Hc; try done.
    intros [= <- <-]. simpl. split; [apply length_insert|]. split.
    + intros i ch Hi. by apply lookup_delete_Some in Hi as [_ ?].
    + intros ch. destruct (decide (c = ch)) as [->|Hne].
      * right. split; [|done]. apply list_lookup_insert_eq.
        by eapply lookup_lt_Some.
      * left. by apply list_lookup_insert_ne.
  - intros [= <- <-]. split; [done|]. split; [done|]. intros ch. by left.
Qed.

Lemma notify_effect session m m' :
  notify session m = Some m' →
  length (chans m') = length (chans m) ∧
  (∀ i ch, waitingChans m' !! i = Some ch → waitingChans m !! i = Some ch) ∧
  (∀ ch, chans m' !! ch = chans m !! ch ∨
         (chans m' !! ch = Some (Some session) ∧
          (waitingChans m !! ID (Player1 session) = Some ch ∨
           waitingChans m !! ID (Player2 session) = Some ch))).
Proof.
  unfold notify.
  destruct (deliver (ID (Player1 session)) session m) as [[b1 m1]|] eqn:H1;
    [|done].
  destruct (deliver (ID (Player2 session)) session m1) as [[b2 m2]|] eqn:H2;
    [|done].
  simpl. intros [= <-].
  apply deliver_effect in H1 as (Hl1 & Hw1 & Hc1).
  apply deliver_effect in H2 as (Hl2 & Hw2 & Hc2).
  split; [congruence|]. split; [by eauto|].
  intros ch. destruct (Hc2 ch) as [Heq|[Hs Hw]].
  - rewrite Heq. destruct (Hc1 ch) as [Heq1|[Hs1 Hw1']]; [by left|].
    right. by eauto.
  - right. split; [done|]. right. by apply Hw1.
Qed.

Lemma answers_ok_init : answers_ok init_state.
Proof. split; simpl; intros *; try done; by rewrite ?lookup_nil. Qed.

(** A request that moves on keeps its player and its channel. *)
Lemma requests_update_inv (reqs : list Request) r0 q0 q0' r q :
  reqs !! r0 = Some q0 →
  player q0' = player q0 → matchChan q0' = matchChan q0 →
  <[r0 := q0']> reqs !! r = Some q →
  ∃ qo, reqs !! r = Some qo ∧ player q = player qo ∧
        matchChan q = matchChan qo ∧
        (q = qo ∨ (r = r0 ∧ q = q0')).
Proof.
  intros H0 Hp Hc Hl.
  apply list_lookup_insert_Some in Hl as [(<- & <- & _)|[Hne Hl]].
  - exists q0. do 3 (split; [done|]). by right.
  - exists q. do 3 (split; [done|]). by left.
Qed.

(** Only the step that returns a session changes what the invariant
    says about the requests. *)
Lemma answers_ok_update s r0 q0 q0' d m pe :
  answers_ok s →
  requests s !! r0 = Some q0 →
  player q0' = player q0 → matchChan q0' = matchChan q0 →
  (∀ session, at_pc q0' ≠ Returned (RespSession session)) →
  sessions (db s) `prefix_of` sessions d →
  chans m = chans (mem s) →
  (∀ i ch, waitingChans m !! i = Some ch →
           waitingChans (mem s) !! i = Some ch) →
  (∀ session, pe = Some session → pending s = Some session) →
  answers_ok (mkState d m (<[r0 := q0']> (requests s)) pe).
Proof.
  intros [Hpe Hal How Hbu Hbo Han] H0 Hp Hc Hat Hd Hm Hw Hpd.
  split; simpl.
  - intros session Hs. eapply stored_mono; [done|]. by apply Hpe, Hpd.
  - intros r q ch Hr Hq.
    destruct (requests_update_inv _ _ _ _ _ _ H0 Hp Hc Hr)
      as (qo & Hro & _ & Hco & _).
    rewrite Hm. eapply Hal; [done|congruence].
  - intros id ch r q Hid Hr Hq.
    destruct (requests_update_inv _ _ _ _ _ _ H0 Hp Hc Hr)
      as (qo & Hro & Hpo & Hco & _).
    rewrite Hpo. eapply How; [by apply Hw|done|congruence].
  - intros ch session Hb. rewrite Hm in Hb.
    eapply stored_mono; [done|]. by eapply Hbu.
  - intros ch session r q Hb Hr Hq. rewrite Hm in Hb.
    destruct (requests_update_inv _ _ _ _ _ _ H0 Hp Hc Hr)
      as (qo & Hro & Hpo & Hco & _).
    rewrite Hpo. eapply Hbo; [done|done|congruence].
  - intros r q session Hr Hq.
    destruct (requests_update_inv _ _ _ _ _ _ H0 Hp Hc Hr)
      as (qo & Hro & Hpo & Hco & [->|[-> ->]]).
    + destruct (Han _ _ _ Hro Hq) as [Hst Hpl].
      split; [by eapply stored_mono|done].
    + by destruct (Hat session).
Qed.

Lemma answers_ok_step l s s' :
  wf s → answers_ok s → step l s = Some s' → answers_ok s'.
Proof.
  intros Hwf Hok Hstep.
  destruct l as [p t f|r0|r0|r0|r0|r0 f|e|]; simpl in Hstep.
  - (* Arrive *)
    destruct Hok as [Hpe Hal How Hbu Hbo Han].
    unfold handler_enqueue in Hstep.
    pose proof (insertWaitingPlayer_sessions f t p (db s)) as Hs.
    assert (∃ d q0, s' = mkState d (mem s) (requests s ++ [q0]) (pending s) ∧
              sessions d = sessions (db s) ∧ matchChan q0 = None ∧
              ∀ session, at_pc q0 ≠ Returned (RespSession session))
      as (d & q0 & -> & Hd & Hc0 & Hat0).
    { destruct (insertWaitingPlayer f t p (db s)) as [d [err|]];
        injection Hstep as <-; by eexists _, _. }
    assert (sessions (db s) `prefix_of` sessions d) as Hpre by by rewrite Hd.
    split; simpl.
    + intros session Hs'. eapply stored_mono; [done|]. by apply Hpe.
    + intros r q ch Hr Hq.
      apply lookup_snoc_Some in Hr as [[_ Hr]|[_ <-]]; [by eapply Hal|].
      congruence.
    + intros id ch r q Hid Hr Hq.
      apply lookup_snoc_Some in Hr as [[_ Hr]|[_ <-]]; [by eapply How|].
      congruence.
    + intros ch session Hb. eapply stored_mono; [done|]. by eapply Hbu.
    + intros ch session r q Hb Hr Hq.
      apply lookup_snoc_Some in Hr as [[_ Hr]|[_ <-]]; [by eapply Hbo|].
      congruence.
    + intros r q session Hr Hq.
      apply lookup_snoc_Some in Hr as [[_ Hr]|[_ <-]].
      * destruct (Han _ _ _ Hr Hq). split; [by eapply stored_mono|done].
      * by destruct (Hat0 session).
  - (* RegisterChan *)
    destruct (requests s !! r0) as [[p c []]|] eqn:H0; try done.
    injection Hstep as <-.
    destruct Hok as [Hpe Hal How Hbu Hbo Han].
    destruct Hwf as [_ [Hem _] _].
    split; simpl.
    + done.
    + intros r q ch Hr Hq. rewrite length_app. simpl.
      apply list_lookup_insert_Some in Hr as [(<- & <- & _)|[Hne Hr]].
      * simpl in Hq. injection Hq as <-. lia.
      * pose proof (Hal _ _ _ Hr Hq). lia.
    + intros id ch r q Hid Hr Hq.
      destruct (decide (ID p = id)) as [<-|Hne].
      * rewrite lookup_insert_eq in Hid. injection Hid as <-.
        apply list_lookup_insert_Some in Hr as [(<- & <- & _)|[Hn Hr]];
          [done|].
        pose proof (Hal _ _ _ Hr Hq). lia.
      * rewrite lookup_insert_ne in Hid by done.
        apply list_lookup_insert_Some in Hr as [(<- & <- & _)|[Hn Hr]].
        -- simpl in Hq. injection Hq as <-.
           apply Hem, lookup_lt_Some in Hid. lia.
        -- by eapply How.
    + intros ch session Hb.
      apply lookup_snoc_Some in Hb as [[_ Hb]|[_ ?]]; [by eapply Hbu|done].
    + intros ch session r q Hb Hr Hq.
      apply lookup_snoc_Some in Hb as [[Hlt Hb]|[_ ?]]; [|done].
      apply list_lookup_insert_Some in Hr as [(<- & <- & _)|[Hn Hr]].
      * simpl in Hq. injection Hq as <-. lia.
      * by eapply Hbo.
    + intros r q session Hr Hq.
      apply list_lookup_insert_Some in Hr as [(<- & <- & _)|[Hn Hr]];
        [done|by eapply Han].
  - (* Receive *)
    destruct (requests s !! r0) as [[p [c|] []]|] eqn:H0; try done.
    unfold chan_recv in Hstep.
    destruct (chans (mem s) !! c) as [[got|]|] eqn:Hc; try done.
    injection Hstep as <-.
    destruct Hok as [Hpe Hal How Hbu Hbo Han].
    split; simpl.
    + done.
    + intros r q ch Hr Hq. rewrite length_insert.
      destruct (requests_update_inv _ _ _
                  (mkRequest p (Some c) (Returned (RespSession got)))
                  _ _ H0 eq_refl eq_refl Hr) as (qo & Hro & _ & Hco & _).
      eapply Hal; [done|congruence].
    + intros id ch r q Hid Hr Hq.
      destruct (requests_update_inv _ _ _
                  (mkRequest p (Some c) (Returned (RespSession got)))
                  _ _ H0 eq_refl eq_refl Hr) as (qo & Hro & Hpo & Hco & _).
      rewrite Hpo. eapply How; [done|done|congruence].
    + intros ch session Hb.
      apply list_lookup_insert_Some in Hb as [(_ & ? & _)|[_ Hb]];
        [done|by eapply Hbu].
    + intros ch session r q Hb Hr Hq.
      apply list_lookup_insert_Some in Hb as [(_ & ? & _)|[_ Hb]]; [done|].
      destruct (requests_update_inv _ _ _
                  (mkRequest p (Some c) (Returned (RespSession got)))
                  _ _ H0 eq_refl eq_refl Hr) as (qo & Hro & Hpo & Hco & _).
      rewrite Hpo. eapply Hbo; [done|done|congruence].
    + intros r q session Hr Hq.
      apply list_lookup_insert_Some in Hr as [(<- & <- & _)|[Hn Hr]];
        [|by eapply Han].
      simpl in Hq. injection Hq as <-. split; [by eapply Hbu|].
      by apply (Hbo c got r0 (mkRequest p (Some c) AtSelect)).
  - (* Deadline *)
    destruct (requests s !! r0) as [[p c []]|] eqn:H0; try done.
    injection Hstep as <-. unfold set_request.
    by eapply (answers_ok_update s r0 _ (mkRequest p c AtUnregister)).
  - (* Unregister *)
    destruct (requests s !! r0) as [[p c []]|] eqn:H0; try done.
    injection Hstep as <-.
    eapply (answers_ok_update s r0 _ (mkRequest p c AtDelete)); try done.
    simpl. intros i ch Hi. by apply lookup_delete_Some in Hi as [_ ?].
  - (* Delete *)
    destruct (requests s !! r0) as [[p c []]|] eqn:H0; try done.
    injection Hstep as <-.
    eapply (answers_ok_update s r0 _ (mkRequest p c (Returned resp_timeout)));
      try done.
    simpl. unfold deleteWaitingPlayer. by destruct f.
  - (* Tick *)
    destruct (pending s) eqn:Hp; [done|].
    destruct Hok as [Hpe Hal How Hbu Hbo Han].
    pose proof (tick_sessions_prefix e (db s)) as Hpre.
    pose proof (tick_matched e (db s)) as Hm.
    destruct (matchmakingProcessor_tx e (db s)) as [d res]. simpl in *.
    assert (∃ pe, s' = mkState d (mem s) (requests s) pe ∧
              ∀ session, pe = Some session → stored d session)
      as (pe & -> & Hpe').
    { destruct res; injection Hstep as <-; eexists; (split; [done|]);
        try done.
      intros ? [= <-].
      destruct (Hm session eq_refl) as (r1 & r2 & rest & _ & Hs & [= ->]).
      exists (now e). simpl. apply elem_of_app. right. rewrite Hs. by left. }
    split; simpl; [done|done|done|..].
    + intros ch session Hb. eapply stored_mono; [done|]. by eapply Hbu.
    + done.
    + intros r q session Hr Hq. destruct (Han _ _ _ Hr Hq).
      split; [by eapply stored_mono|done].
  - (* Notify *)
    destruct (pending s) as [pend|] eqn:Hp; [|done].
    destruct (notify pend (mem s)) as [m|] eqn:Hn; [|done].
    injection Hstep as <-.
    apply notify_effect in Hn as (Hlen & Hw & Hc).
    destruct Hok as [Hpe Hal How Hbu Hbo Han].
    split; simpl.
    + done.
    + intros r q ch Hr Hq. rewrite Hlen. by eapply Hal.
    + intros id ch r q Hid Hr Hq. eapply How; [by apply Hw|done..].
    + intros ch session Hb. destruct (Hc ch) as [Heq|[Hs _]].
      * rewrite Heq in Hb. by eapply Hbu.
      * rewrite Hs in Hb. injection Hb as <-. by apply Hpe.
    + intros ch session r q Hb Hr Hq. destruct (Hc ch) as [Heq|[Hs Hid]].
      * rewrite Heq in Hb. by eapply Hbo.
      * rewrite Hs in Hb. injection Hb as <-.
        destruct Hid as [Hid|Hid]; [left|right]; by eapply How.
    + done.
Qed.

Lemma answers_ok_run tr s s' :
  wf s → answers_ok s → run tr s = Some s' → answers_ok s'.
Proof.
  revert s. induction tr as [|l tr IH]; intros s Hwf Hok; simpl.
  - by intros [= <-].
  - destruct (step l s) as [s1|] eqn:Hstep; [|done].
    apply IH; [by eapply wf_step|by eapply answers_ok_step].
Qed.

(** X11: a caller that is answered with a session gets one whose row is
    in [sessions], and is itself one of its two players; this holds in
    every state the service can reach, whatever the interleaving. *)
Theorem answered_session_is_stored_and_own
    (tr : list label) (s : State) (r : nat) (q : Request)
    (session : SessionResult) :
  run tr init_state = Some s →
  requests s !! r = Some q →
  at_pc q = Returned (RespSession session) →
  (∃ t, mkSessionRow (SessionID session) (ID (Player1 session))
          (ID (Player2 session)) t ∈ sessions (db s)) ∧
  (ID (player q) = ID (Player1 session) ∨
   ID (player q) = ID (Player2 session)).
Proof.
  intros Hrun Hr Hq.
  pose proof (answers_ok_run _ _ _ wf_init answers_ok_init Hrun) as Hok.
  by apply (ok_answer _ Hok r q session).
Qed.

Lemma answered_session_is_stored_and_own_witness :
  (∃ t, mkSessionRow (SessionID (createSession 42 pa pb))
          (ID (Player1 (createSession 42 pa pb)))
          (ID (Player2 (createSession 42 pa pb))) t
        ∈ sessions (db (after (deadline_taken ++ [Receive 1])))) ∧
  (ID pb = ID (Player1 (createSession 42 pa pb)) ∨
   ID pb = ID (Player2 (createSession 42 pa pb))).
Proof.
  apply (answered_session_is_stored_and_own (deadline_taken ++ [Receive 1])
           (after (deadline_taken ++ [Receive 1])) 1%nat
           (mkRequest pb (Some 1%nat)
              (Returned (RespSession (createSession 42 pa pb))))
           (createSession 42 pa pb)); reflexivity.
Defined.

(** ** Two players, start to end *)









(** ** The CORS wrapper *)

Lemma cors_headers_set (h : gmap string (list string)) :
  let h' := Header_Set "Access-Control-Allow-Headers" "Content-Type"
              (Header_Set "Access-Control-Allow-Methods" "GET, POST, OPTIONS"
                 (Header_Set "Access-Control-Allow-Origin" "*" h)) in
  h' !! "Access-Control-Allow-Origin" = Some ["*"] ∧
  h' !! "Access-Control-Allow-Methods" = Some ["GET, POST, OPTIONS"] ∧
  h' !! "Access-Control-Allow-Headers" = Some ["Content-Type"] ∧
  ∀ k, k ∉ cors_keys → h' !! k = h !! k.
Proof.
  simpl. unfold Header_Set.
  split; [by rewrite !lookup_insert_ne, lookup_insert_eq by done|].
  split; [by rewrite lookup_insert_ne, lookup_insert_eq by done|].
  split; [by rewrite lookup_insert_eq|].
  intros k Hk. unfold cors_keys in Hk.
  apply not_elem_of_cons in Hk as [H1 Hk].
  apply not_elem_of_cons in Hk as [H2 Hk].
  apply not_elem_of_cons in Hk as [H3 _].
  by rewrite !lookup_insert_ne by done.
Qed.

(** X14: a request with the method OPTIONS ends in the wrapper.  The
    wrapped handler is not run, whichever it is, so nothing but the
    headers changes; the response carries the three CORS headers, each
    with its one value in place of whatever was there, and every other
    header is as before. *)
Theorem cors_preflight_stops_here {W : Type} (next next' : Handler W)
    (h : gmap string (list string)) (r : HttpRequest) (w : W) :
  Method r = "OPTIONS" →
  snd (corsMiddleware next h r w) = w ∧
  corsMiddleware next h r w = corsMiddleware next' h r w ∧
  fst (corsMiddleware next h r w) !! "Access-Control-Allow-Origin"
    = Some ["*"] ∧
  fst (corsMiddleware next h r w) !! "Access-Control-Allow-Methods"
    = Some ["GET, POST, OPTIONS"] ∧
  fst (corsMiddleware next h r w) !! "Access-Control-Allow-Headers"
    = Some ["Content-Type"] ∧
  ∀ k, k ∉ cors_keys → fst (corsMiddleware next h r w) !! k = h !! k.
Proof.
  intros Hm. unfold corsMiddleware.
  rewrite bool_decide_eq_true_2 by done. simpl.
  split; [done|]. split; [done|]. apply cors_headers_set.
Qed.

Lemma cors_preflight_stops_here_witness :
  let next : Handler nat := λ h r w, (h, S w) in
  let next' : Handler nat := λ h r w, (∅, O) in
  let h : gmap string (list string) :=
    {[ "Access-Control-Allow-Origin" := ["example.org"; "example.com"] ]} in
  let r := mkHttpRequest "OPTIONS" "" in
  snd (corsMiddleware next h r 5%nat) = 5%nat ∧
  corsMiddleware next h r 5%nat = corsMiddleware next' h r 5%nat ∧
  fst (corsMiddleware next h r 5%nat) !! "Access-Control-Allow-Origin"
    = Some ["*"] ∧
  fst (corsMiddleware next h r 5%nat) !! "Access-Control-Allow-Methods"
    = Some ["GET, POST, OPTIONS"] ∧
  fst (corsMiddleware next h r 5%nat) !! "Access-Control-Allow-Headers"
    = Some ["Content-Type"] ∧
  ∀ k, k ∉ cors_keys → fst (corsMiddleware next h r 5%nat) !! k = h !! k.
Proof.
  intros next next' h r.
  apply (cors_preflight_stops_here next next' h r 5%nat). reflexivity.
Defined.

(** X15: every request whose method is not exactly OPTIONS goes on to
    the wrapped handler, whatever the method is; the handler finds the
    three CORS headers set and the other headers untouched.  Wrapping a
    handler twice is the same as wrapping it once. *)
Theorem cors_passes_other_methods_on {W : Type} (next : Handler W)
    (h : gmap string (list string)) (r : HttpRequest) (w : W) :
  Method r ≠ "OPTIONS" →
  (∃ h', corsMiddleware next h r w = next h' r w ∧
     h' !! "Access-Control-Allow-Origin" = Some ["*"] ∧
     h' !! "Access-Control-Allow-Methods" = Some ["GET, POST, OPTIONS"] ∧
     h' !! "Access-Control-Allow-Headers" = Some ["Content-Type"] ∧
     ∀ k, k ∉ cors_keys → h' !! k = h !! k) ∧
  corsMiddleware (corsMiddleware next) h r w = corsMiddleware next h r w.
Proof.
  intros Hm. unfold corsMiddleware.
  rewrite !(bool_decide_eq_false_2 (Method r = "OPTIONS")) by done.
  split.
  - eexists. split; [done|]. apply cors_headers_set.
  - simpl. f_equal. unfold Header_Set.
    apply map_eq. intros k. rewrite !lookup_insert.
    by repeat case_decide.
Qed.

Lemma cors_passes_other_methods_on_witness :
  let next : Handler nat := λ h r w, (h, S w) in
  let r := mkHttpRequest "options" "" in
  (∃ h', corsMiddleware next ∅ r 5%nat = next h' r 5%nat ∧
     h' !! "Access-Control-Allow-Origin" = Some ["*"] ∧
     h' !! "Access-Control-Allow-Methods" = Some ["GET, POST, OPTIONS"] ∧
     h' !! "Access-Control-Allow-Headers" = Some ["Content-Type"] ∧
     ∀ k, k ∉ cors_keys → h' !! k = (∅ : gmap string (list string)) !! k) ∧
  corsMiddleware (corsMiddleware next) ∅ r 5%nat
    = corsMiddleware next ∅ r 5%nat.
Proof.
  intros next r.
  apply (cors_passes_other_methods_on next ∅ r 5%nat).
  by vm_compute.
Defined.

(** ** The schema loader *)

Lemma Split_not_nil s sep : Split s sep ≠ [].
Proof.
  induction s as [|c s IH]; simpl; [done|].
  destruct (decide (c = sep)); [done|]. by destruct (Split s sep).
Qed.

Lemma Split_app s1 s2 sep :
  Split (s1 +:+ String sep s2) sep = Split s1 sep ++ Split s2 sep.
Proof.
  induction s1 as [|c s1 IH]; simpl.
  - by rewrite decide_True.
  - destruct (decide (c = sep)); [by rewrite IH|].
    rewrite IH. pose proof (Split_not_nil s1 sep).
    by destruct (Split s1 sep).
Qed.

Lemma Split_no_sep s sep :
  sep ∉ String.list_ascii_of_string s → Split s sep = [s].
Proof.
  induction s as [|c s IH]; simpl; [done|].
  intros Hn. apply not_elem_of_cons in Hn as [Hc Hn].
  rewrite decide_False by done. by rewrite IH.
Qed.

Lemma Split_pieces s sep piece :
  piece ∈ Split s sep → sep ∉ String.list_ascii_of_string piece.
Proof.
  revert piece. induction s as [|c s IH]; simpl; intros piece Hin.
  - apply list_elem_of_singleton in Hin as ->. apply not_elem_of_nil.
  - destruct (decide (c = sep)) as [->|Hne].
    + apply elem_of_cons in Hin as [->|Hin]; [apply not_elem_of_nil|by apply IH].
    + destruct (Split s sep) as [|p ps] eqn:Hs.
      * apply list_elem_of_singleton in Hin as ->. simpl.
        apply not_elem_of_cons. split; [done|apply not_elem_of_nil].
      * apply elem_of_cons in Hin as [->|Hin].
        -- simpl. apply not_elem_of_cons. split; [done|].
           apply IH. by left.
        -- apply IH. by right.
Qed.

Lemma strip_prefix_Some p l rest :
  strip_prefix p l = Some rest → l = p ++ rest.
Proof.
  revert l. induction p as [|x p IH]; intros [|y l]; simpl; try done.
  - by intros [= ->].
  - by intros [= ->].
  - destruct (decide (x = y)) as [->|]; [|done].
    intros H. by rewrite (IH _ H).
Qed.

Lemma strip_rune_Some runes l rest :
  strip_rune runes l = Some rest → ∃ p, p ∈ runes ∧ l = p ++ rest.
Proof.
  induction runes as [|p runes IH]; simpl; [done|].
  destruct (strip_prefix p l) as [r|] eqn:Hp.
  - intros [= <-]. exists p. split; [by left|by apply strip_prefix_Some].
  - intros H. destruct (IH H) as (p' & Hin & ->). exists p'.
    split; [by right|done].
Qed.

(** What trimming drops is made of the bytes of the runes, and what it
    keeps is the rest. *)
Lemma trim_left_split runes fuel l :
  ∃ pre, l = pre ++ trim_left runes fuel l ∧
         ∀ c, c ∈ pre → ∃ p, p ∈ runes ∧ c ∈ p.
Proof.
  revert l. induction fuel as [|fuel IH]; intros l; simpl.
  - exists []. split; [done|]. intros c Hc. by apply elem_of_nil in Hc.
  - destruct (strip_rune runes l) as [rest|] eqn:Hs.
    + apply strip_rune_Some in Hs as (p & Hp & ->).
      destruct (IH rest) as (pre & Hrest & Hpre).
      exists (p ++ pre). split; [by rewrite <- app_assoc, <- Hrest|].
      intros c Hc. apply elem_of_app in Hc as [Hc|Hc]; eauto.
    + exists []. split; [done|]. intros c Hc. by apply elem_of_nil in Hc.
Qed.

Lemma list_ascii_of_string_inv s :
  String.string_of_list_ascii (String.list_ascii_of_string s) = s.
Proof. apply String.string_of_list_ascii_of_string. Qed.

Lemma TrimSpace_bytes s c :
  c ∈ String.list_ascii_of_string (TrimSpace s) →
  c ∈ String.list_ascii_of_string s.
Proof.
  unfold TrimSpace. rewrite String.list_ascii_of_string_of_list_ascii.
  set (l := String.list_ascii_of_string s).
  destruct (trim_left_split space_runes (length l) l) as (pre1 & H1 & _).
  set (l1 := trim_left space_runes (length l) l) in *.
  destruct (trim_left_split (reverse <$> space_runes) (length l1) (reverse l1))
    as (pre2 & H2 & _).
  intros Hc. rewrite H1. apply elem_of_app. right.
  apply elem_of_reverse. rewrite H2. apply elem_of_app. right.
  by apply elem_of_reverse.
Qed.

Lemma space_rune_bytes c p :
  p ∈ space_runes → c ∈ p → c ≠ ";"%char.
Proof.
  intros Hp Hc ->. revert Hp Hc.
  unfold space_runes. simpl.
  rewrite !elem_of_cons, elem_of_nil.
  intros Hp Hc. repeat (destruct Hp as [->|Hp];
    [by repeat (apply elem_of_cons in Hc as [Hc|Hc]; [done|]);
        apply elem_of_nil in Hc|]).
  done.
Qed.

(** A piece that trims to nothing is white space only; it holds no
    separator. *)
Lemma TrimSpace_blank s :
  TrimSpace s = EmptyString → ";"%char ∉ String.list_ascii_of_string s.
Proof.
  unfold TrimSpace.
  set (l := String.list_ascii_of_string s).
  destruct (trim_left_split space_runes (length l) l) as (pre1 & H1 & Hp1).
  set (l1 := trim_left space_runes (length l) l) in *.
  destruct (trim_left_split (reverse <$> space_runes) (length l1) (reverse l1))
    as (pre2 & H2 & Hp2).
  set (l2 := trim_left (reverse <$> space_runes) (length l1) (reverse l1)) in *.
  intros He.
  assert (l2 = []) as Hl2.
  { apply (f_equal String.list_ascii_of_string) in He.
    rewrite String.list_ascii_of_string_of_list_ascii in He. simpl in He.
    by apply (inj reverse). }
  rewrite Hl2, app_nil_r in H2.
  rewrite H1. intros Hin. apply elem_of_app in Hin as [Hin|Hin].
  - destruct (Hp1 _ Hin) as (p & Hp & Hc).
    exact (space_rune_bytes _ _ Hp Hc eq_refl).
  - apply elem_of_reverse in Hin. rewrite H2 in Hin.
    destruct (Hp2 _ Hin) as (p & Hp & Hc).
    apply list_elem_of_fmap in Hp as (p0 & -> & Hp0).
    rewrite elem_of_reverse in Hc.
    exact (space_rune_bytes _ _ Hp0 Hc eq_refl).
Qed.

Lemma exec_stmts_app {D} (Exec : string → D → D * option error) l1 l2 d :
  exec_stmts Exec (l1 ++ l2) d =
  match exec_stmts Exec l1 d with
  | (d1, None) => exec_stmts Exec l2 d1
  | failed => failed
  end.
Proof.
  revert d. induction l1 as [|stmt l1 IH]; intros d; simpl; [done|].
  destruct (decide (TrimSpace stmt = EmptyString)); [apply IH|].
  destruct (Exec (TrimSpace stmt) d) as [d1 [err|]]; [done|apply IH].
Qed.

Lemma initSchemaFromFile_app {D : Type}
    (Exec : string → D → D * option error) (a b : string) (d : D) :
  initSchemaFromFile Exec (Some (a +:+ String ";" b)) d =
  match initSchemaFromFile Exec (Some a) d with
  | (d1, None) => initSchemaFromFile Exec (Some b) d1
  | failed => failed
  end.
Proof. simpl. by rewrite Split_app, exec_stmts_app. Qed.

(** X16: loading a file [a;b] is loading [a] and then, when that went
    through, loading [b] on what [a] left.  When a statement of [a]
    fails the load stops there with that error: what ran before it
    stays applied, and nothing of [b] is run. *)
Theorem schema_load_is_sequential {D : Type}
    (Exec : string → D → D * option error) (a b : string) (d : D) :
  initSchemaFromFile Exec (Some (a +:+ String ";" b)) d =
  match initSchemaFromFile Exec (Some a) d with
  | (d1, None) => initSchemaFromFile Exec (Some b) d1
  | failed => failed
  end.
Proof.
  simpl. rewrite Split_app. rewrite exec_stmts_app.
  by destruct (exec_stmts Exec (Split a ";") d) as [d1 [err|]].
Qed.

(** X17: pieces that are only white space are skipped.  A file may end
    with a separator and white space after the last statement, an empty
    file runs nothing and succeeds, and a file that cannot be read runs
    nothing and fails. *)
Theorem schema_blank_pieces_are_skipped {D : Type}
    (Exec : string → D → D * option error) (a ws : string) (d : D) :
  (TrimSpace ws = EmptyString →
   initSchemaFromFile Exec (Some (a +:+ String ";" ws)) d =
   initSchemaFromFile Exec (Some a) d) ∧
  initSchemaFromFile Exec (Some EmptyString) d = (d, None) ∧
  initSchemaFromFile Exec None d = (d, Some ErrReadFile).
Proof.
  split; [|done]. intros Hws. rewrite initSchemaFromFile_app.
  destruct (initSchemaFromFile Exec (Some a) d) as [d1 [err|]]; [done|].
  simpl. rewrite Split_no_sep by by apply TrimSpace_blank.
  simpl. by rewrite decide_True.
Qed.

Lemma exec_stmts_recorded ok stmts log stmt :
  stmt ∈ fst (exec_stmts (recording ok) stmts log) →
  stmt ∈ log ∨
  ∃ piece, piece ∈ stmts ∧ stmt = TrimSpace piece ∧ stmt ≠ EmptyString.
Proof.
  revert log. induction stmts as [|piece stmts IH]; intros log; simpl.
  - by left.
  - destruct (decide (TrimSpace piece = EmptyString)) as [He|Hne].
    + intros H. destruct (IH _ H) as [?|(p & Hp & ? & ?)]; [by left|].
      right. exists p. split; [by right|done].
    + unfold recording at 1. destruct (ok (TrimSpace piece)); simpl.
      * intros H. destruct (IH _ H) as [Hin|(p & Hp & ? & ?)].
        -- apply elem_of_app in Hin as [?|Hin]; [by left|].
           apply list_elem_of_singleton in Hin as ->.
           right. exists piece. split; [by left|done].
        -- right. exists p. split; [by right|done].
      * intros Hin. apply elem_of_app in Hin as [?|Hin]; [by left|].
        apply list_elem_of_singleton in Hin as ->.
        right. exists piece. split; [by left|done].
Qed.

(** X18: whatever the file holds and whichever statements fail, no
    statement handed to the database is empty and none contains a
    semicolon: the loader cuts at every semicolon, also inside a string
    literal or a comment. *)
Theorem schema_statements_have_no_semicolon
    (ok : string → bool) (data stmt : string) :
  stmt ∈ fst (initSchemaFromFile (recording ok) (Some data) []) →
  stmt ≠ EmptyString ∧ ";"%char ∉ String.list_ascii_of_string stmt.
Proof.
  simpl. intros Hin.
  apply exec_stmts_recorded in Hin as [Hin|(piece & Hp & -> & Hne)].
  - by apply elem_of_nil in Hin.
  - split; [done|]. intros Hc. apply TrimSpace_bytes in Hc.
    by apply (Split_pieces _ _ _ Hp).
Qed.

Lemma schema_blank_pieces_are_skipped_witness :
  initSchemaFromFile (recording (λ _, true))
    (Some ("CREATE TABLE t (x INT)" +:+ String ";" (String "010" " "))) [] =
  initSchemaFromFile (recording (λ _, true))
    (Some "CREATE TABLE t (x INT)") [].
Proof.
  apply (proj1 (schema_blank_pieces_are_skipped (recording (λ _, true))
                  "CREATE TABLE t (x INT)" (String "010" " ") [])).
  reflexivity.
Defined.

Lemma schema_statements_have_no_semicolon_witness :
  "INSERT INTO t VALUES ('a" ≠ EmptyString ∧
  ";"%char ∉ String.list_ascii_of_string "INSERT INTO t VALUES ('a".
Proof.
  apply (schema_statements_have_no_semicolon (λ _, true)
           "CREATE TABLE t (x TEXT); INSERT INTO t VALUES ('a;b')").
  refine (bool_decide_unpack _ _). vm_compute. exact I.
Defined.
